(** * A shallow embedding of [src/simple_graph.py]

    The Python class [Graph] keeps one attribute, [self._nodes], a [dict]
    from node identifiers to the list of their successors.  Every method
    is embedded as a computation in a small state-and-error monad whose
    state is that dictionary.  Python dictionaries iterate in insertion
    order, so the dictionary is an association list with one entry per
    key, the newest key last.  Each key owns a list that was created
    fresh by [add_node] or [setdefault], so no two entries alias and
    lists are modelled by value; methods are called with nodes as
    arguments, so a caller that changes the list [neighbors] returned,
    or hands it to a traversal as its second argument, is outside the
    model.  The script at the end of the module,
    [src/trie_tree.py] and [src/binary_search_tree.py] follow the graph. *)

From Stdlib Require Import ZArith Lia.
From stdpp Require Import base decidable list sets relations.

(** ** Outcomes of a call *)

(** The two exception classes the module raises. *)
Inductive exn : Type :=
| ValueError
| KeyError.

(** A call returns a value, raises, or (in the model only) exhausts the
    recursion budget it was given. *)
Inductive outcome (A : Type) : Type :=
| Return (a : A)
| Raise (e : exn)
| OutOfFuel.

Arguments Return {A} a.
Arguments Raise {A} e.
Arguments OutOfFuel {A}.

Definition is_return {A} (r : outcome A) : bool :=
  match r with Return _ => true | _ => false end.

Definition terminated {A} (r : outcome A) : bool :=
  match r with OutOfFuel => false | _ => true end.

(** The type of [self._nodes]: the entries in insertion order. *)
Abbreviation dict node := (list (node * list node)).

Section SimpleGraph.

Context {node : Type} `{EqDecision node}.

(** ** The dictionary [self._nodes] *)

(** [x in l] on a Python list. *)
Definition mem (x : node) (l : list node) : bool := bool_decide (x ∈ l).

(** [list(d)]: the keys in iteration order. *)
Definition keys (d : dict node) : list node := d.*1.

(** [d.get(k)]: [None] when the key is absent. *)
Fixpoint getitem (k : node) (d : dict node) : option (list node) :=
  match d with
  | [] => None
  | (k', v) :: d' => if decide (k = k') then Some v else getitem k d'
  end.

(** [k in d]. *)
Definition contains (k : node) (d : dict node) : bool :=
  match getitem k d with Some _ => true | None => false end.

(** [d[k] = v]: overwrite in place, or append a new entry. *)
Fixpoint setitem (k : node) (v : list node) (d : dict node) : dict node :=
  match d with
  | [] => [(k, v)]
  | (k', v') :: d' =>
      if decide (k = k') then (k, v) :: d' else (k', v') :: setitem k v d'
  end.

(** [d.setdefault(k, v)]: no effect on a key that is present. *)
Definition setdefault (k : node) (v : list node) (d : dict node) : dict node :=
  if contains k d then d else setitem k v d.

(** [del d[k]] on a key that is present. *)
Definition delitem (k : node) (d : dict node) : dict node :=
  filter (λ kv, kv.1 ≠ k) d.

(** [l.remove(x)]: drops the first occurrence, [None] when there is none
    (Python raises [ValueError] there). *)
Fixpoint list_remove (x : node) (l : list node) : option (list node) :=
  match l with
  | [] => None
  | y :: l' => if decide (x = y) then Some l' else (y ::.) <$> list_remove x l'
  end.

(** ** The monad of method bodies *)

Definition M (A : Type) : Type := dict node → outcome A * dict node.

#[global] Instance M_ret : MRet M := λ A a d, (Return a, d).

#[global] Instance M_bind : MBind M := λ A B f m d,
  match m d with
  | (Return a, d') => f a d'
  | (Raise e, d') => (Raise e, d')
  | (OutOfFuel, d') => (OutOfFuel, d')
  end.

Definition raise {A} (e : exn) : M A := λ d, (Raise e, d).

Definition out_of_fuel {A} : M A := λ d, (OutOfFuel, d).

(** Reading [self._nodes]. *)
Definition self_nodes : M (dict node) := λ d, (Return d, d).

(** [k in self._nodes.keys()]. *)
Definition dict_contains (k : node) : M bool := λ d, (Return (contains k d), d).

(** [self._nodes[k]] as an expression: [KeyError] on an absent key. *)
Definition dict_getitem (k : node) : M (list node) := λ d,
  match getitem k d with
  | Some v => (Return v, d)
  | None => (Raise KeyError, d)
  end.

(** [self._nodes[k] = v]. *)
Definition dict_setitem (k : node) (v : list node) : M unit := λ d,
  (Return tt, setitem k v d).

(** [self._nodes.setdefault(k, v)]. *)
Definition dict_setdefault (k : node) (v : list node) : M unit := λ d,
  (Return tt, setdefault k v d).

(** [del self._nodes[k]]: [KeyError] on an absent key. *)
Definition dict_delitem (k : node) : M unit := λ d,
  match getitem k d with
  | Some _ => (Return tt, delitem k d)
  | None => (Raise KeyError, d)
  end.

(** A [for x in l:] loop whose body updates the local variables [s]. *)
Fixpoint for_each {A S : Type} (l : list A) (s : S) (body : A → S → M S) : M S :=
  match l with
  | [] => mret s
  | x :: l' => s' ← body x s; for_each l' s' body
  end.

(** ** The methods of [Graph] *)

(** [Graph.__init__]. *)
Definition init : dict node := [].

(** [Graph.nodes]. *)
Definition nodes : M (list node) :=
  d ← self_nodes; mret (keys d).

(** [Graph.edges].  The test [if self.nodes:] looks at the bound method,
    which is always true, so the loops always run. *)
Definition edges : M (list (node * node)) :=
  d ← self_nodes;
  for_each (keys d) [] (λ start tup_lst,
    ends ← dict_getitem start;
    for_each ends tup_lst (λ end_ tup_lst, mret (tup_lst ++ [(start, end_)]))).

(** [Graph.add_node]. *)
Definition add_node (n : node) : M unit :=
  present ← dict_contains n;
  if (present : bool) then raise ValueError else dict_setitem n [].

(** [Graph.add_edge]: both [setdefault] calls come before the test. *)
Definition add_edge (n1 n2 : node) : M unit :=
  dict_setdefault n1 [];;
  dict_setdefault n2 [];;
  succ ← dict_getitem n1;
  if negb (mem n2 succ) then dict_setitem n1 (succ ++ [n2])
  else raise ValueError.

(** [Graph.del_node]. *)
Definition del_node (n : node) : M unit :=
  present ← dict_contains n;
  if (present : bool) then dict_delitem n else raise ValueError.

(** [Graph.del_edge]: [and] evaluates its right operand only when the
    left one holds. *)
Definition del_edge (n1 n2 : node) : M unit :=
  present ← dict_contains n1;
  ok ← (if (present : bool) then succ ← dict_getitem n1; mret (mem n2 succ)
        else mret false);
  if (ok : bool) then
    succ ← dict_getitem n1;
    match list_remove n2 succ with
    | Some succ' => dict_setitem n1 succ'
    | None => raise ValueError
    end
  else raise ValueError.

(** [Graph.has_node]. *)
Definition has_node (n : node) : M bool := dict_contains n.

(** [Graph.neighbors]. *)
Definition neighbors (n : node) : M (list node) :=
  present ← dict_contains n;
  if (present : bool) then dict_getitem n else raise ValueError.

(** [Graph.adjacent]. *)
Definition adjacent (n1 n2 : node) : M bool :=
  p1 ← has_node n1;
  p2 ← has_node n2;
  if negb p1 || negb p2 then raise KeyError
  else
    succ ← dict_getitem n1;
    if mem n2 succ then mret true else mret false.

(** [Graph.depth_first_traversal].  The list [prev] is shared by all the
    recursive calls, which append to it; the second component of the
    result is its content when the call returns.  [fuel] bounds the
    recursion depth; the interpreter's own recursion limit is not
    modelled. *)
Fixpoint depth_first_traversal (fuel : nat) (start : node)
    (prev : option (list node)) : M (list node * list node) :=
  match fuel with
  | O => out_of_fuel
  | S fuel' =>
      present ← dict_contains start;
      if negb present then raise KeyError
      else
        let prev := default [] prev in
        if mem start prev then mret ([], prev)
        else
          let path_list := [start] in
          nodes ← dict_getitem start;
          let prev := prev ++ [start] in
          for_each nodes (path_list, prev) (λ node '(path_list, prev),
            '(sub, prev) ← depth_first_traversal fuel' node (Some prev);
            mret (path_list ++ sub, prev))
  end.

(** [Graph.breadth_first_traversal].  [parent] is either a single node
    (the external call) or the list of nodes of the next layer (the
    recursive call); [isinstance(parent, list)] tells them apart. *)
Fixpoint breadth_first_traversal (fuel : nat) (parent : node + list node)
    (path_list : option (list node)) : M (list node) :=
  match fuel with
  | O => out_of_fuel
  | S fuel' =>
      let path_list := default [] path_list in
      let '(parent, path_list) :=
        match parent with
        | inl p => ([p], path_list ++ [p])
        | inr l => (l, path_list)
        end in
      children ← for_each parent [] (λ item children,
        succ ← dict_getitem item;
        for_each succ children (λ edge children,
          mret (if negb (mem edge path_list) then children ++ [edge]
                else children)));
      let path_list := path_list ++ children in
      if Nat.eqb (length children) 0 then mret path_list
      else breadth_first_traversal fuel' (inr children) (Some path_list)
  end.

(** ** Calls through the public interface *)

(** What a method hands back to its caller. *)
Inductive value : Type :=
| VNone
| VBool (b : bool)
| VNodes (l : list node)
| VEdges (l : list (node * node)).

(** A call of one public method with its arguments.  The traversals are
    called the way an external caller does, with the start node only. *)
Inductive method : Type :=
| Nodes
| Edges
| AddNode (n : node)
| AddEdge (n1 n2 : node)
| DelNode (n : node)
| DelEdge (n1 n2 : node)
| HasNode (n : node)
| Neighbors (n : node)
| Adjacent (n1 n2 : node)
| DepthFirstTraversal (start : node)
| BreadthFirstTraversal (start : node).

Definition call (fuel : nat) (m : method) : M value :=
  match m with
  | Nodes => l ← nodes; mret (VNodes l)
  | Edges => l ← edges; mret (VEdges l)
  | AddNode n => add_node n;; mret VNone
  | AddEdge n1 n2 => add_edge n1 n2;; mret VNone
  | DelNode n => del_node n;; mret VNone
  | DelEdge n1 n2 => del_edge n1 n2;; mret VNone
  | HasNode n => b ← has_node n; mret (VBool b)
  | Neighbors n => l ← neighbors n; mret (VNodes l)
  | Adjacent n1 n2 => b ← adjacent n1 n2; mret (VBool b)
  | DepthFirstTraversal start =>
      r ← depth_first_traversal fuel start None; mret (VNodes r.1)
  | BreadthFirstTraversal start =>
      l ← breadth_first_traversal fuel (inl start) None; mret (VNodes l)
  end.

(** The four methods that change the graph. *)
Definition is_mutation (m : method) : bool :=
  match m with
  | AddNode _ | AddEdge _ _ | DelNode _ | DelEdge _ _ => true
  | _ => false
  end.

(** The state after a sequence of calls; a caller that catches the
    exception of a failed call goes on with the state that call left. *)
Definition run (fuel : nat) (ms : list method) (d : dict node) : dict node :=
  foldl (λ d m, (call fuel m d).2) d ms.

(** ** Predicates on graph states *)

(** Every successor recorded for a present node is itself present. *)
Definition ref_integrity (d : dict node) : Prop :=
  ∀ x succ y, getitem x d = Some succ → y ∈ succ → contains y d = true.

(** The same, checked entry by entry. *)
Definition ref_integrity_b (d : dict node) : bool :=
  forallb (λ kv, forallb (λ y, contains y d) kv.2) d.

(** No key occurs twice: the shape of every real dictionary. *)
Definition unique_keys (d : dict node) : Prop := NoDup (keys d).

(** Some entry other than [n]'s own lists [n] as a successor. *)
Definition referenced (n : node) (d : dict node) : bool :=
  existsb (λ kv, bool_decide (kv.1 ≠ n) && mem n kv.2) d.

(** A sequence of calls in which [del_node n] is only issued while no
    other node lists [n] as a successor. *)
Fixpoint no_dangling_delete (fuel : nat) (ms : list method) (d : dict node) : bool :=
  match ms with
  | [] => true
  | m :: ms' =>
      match m with DelNode n => negb (referenced n d) | _ => true end
      && no_dangling_delete fuel ms' (call fuel m d).2
  end.

(** There is an edge from [a] to [b]. *)
Definition has_edge (d : dict node) (a b : node) : bool :=
  match getitem a d with Some succ => mem b succ | None => false end.



(** The number of keys not yet in [prev]: what bounds the depth of the
    recursion of [depth_first_traversal]. *)
Definition unvisited (d : dict node) (prev : list node) : nat :=
  length (filter (λ k, k ∉ prev) (keys d)).

(** ** Vocabulary of the proofs *)

(** A computation that leaves the dictionary as it found it. *)
Definition pure_m {A} (m : M A) : Prop := ∀ d, (m d).2 = d.


(** The body of the [for] loop of [depth_first_traversal]; the state of
    the loop is [(path_list, prev)]. *)
Definition dfs_body (fuel : nat) (nd : node) (s : list node * list node)
  : M (list node * list node) :=
  let '(path_list, prev) := s in
  '(sub, prev) ← depth_first_traversal fuel nd (Some prev);
  mret (path_list ++ sub, prev).

(** The two nested loops of [breadth_first_traversal]. *)
Definition bfs_inner (path_list : list node) (edge : node)
    (children : list node) : M (list node) :=
  mret (if negb (mem edge path_list) then children ++ [edge] else children).

Definition bfs_outer (path_list : list node) (item : node)
    (children : list node) : M (list node) :=
  succ ← dict_getitem item; for_each succ children (bfs_inner path_list).

(** What a call [depth_first_traversal(start, prev)] achieves on the
    dictionary [d].  A returned path is exactly what the call appended
    to [prev]; it has no repetition, starts with [start] unless [start]
    had been seen, holds present nodes only, and every successor of one
    of its nodes is present and has been seen when the call returns.
    The only exception is [KeyError], and it needs a successor that has
    no entry. *)
Definition dfs_post (d : dict node) (start : node) (prev : list node)
    (r : outcome (list node * list node)) : Prop :=
  match r with
  | Return (path, prev') =>
      prev' = prev ++ path ∧ NoDup path ∧ (∀ x, x ∈ path → x ∉ prev) ∧
      contains start d = true ∧ start ∈ prev' ∧
      (start ∉ prev → head path = Some start) ∧
      (∀ x succ y, x ∈ path → getitem x d = Some succ → y ∈ succ →
         contains y d = true ∧ y ∈ prev')
  | Raise e => e = KeyError ∧ (contains start d = true → ¬ ref_integrity d)
  | OutOfFuel => False
  end.

(** ** Vocabulary of the further properties *)

(** The successor list of [k], empty when [k] has no entry. *)
Definition successors (d : dict node) (k : node) : list node :=
  default [] (getitem k d).

(** [b] is a successor of the present node [a]. *)
Definition edge (d : dict node) (a b : node) : Prop := has_edge d a b = true.

(** [b] can be reached from [a] along edges, in any number of steps. *)
Definition reachable (d : dict node) : node → node → Prop := rtc (edge d).

(** No successor list holds a node twice. *)
Definition no_parallel_edges (d : dict node) : Prop :=
  ∀ x succ, getitem x d = Some succ → NoDup succ.

(** All pairs [(k, y)] for [y] among the successors of [k], key by key. *)
Definition edge_list (d : dict node) : list (node * node) :=
  keys d ≫= λ k, (k,.) <$> successors d k.


(** The successors of the nodes of [layer] that are not in [path_list]:
    what the two loops of [breadth_first_traversal] collect. *)
Definition bfs_children (d : dict node) (path_list layer : list node)
  : list node :=
  layer ≫= λ item, filter (λ e, e ∉ path_list) (successors d item).

(** What a call of [breadth_first_traversal] on the layer [layer]
    achieves, for a traversal that began at [start]. *)
Definition bfs_post (d : dict node) (start : node) (layer : list node)
    (r : outcome (list node)) : Prop :=
  match r with
  | Return out =>
      head out = Some start ∧
      (∀ x, x ∈ out →
         contains x d = true ∧ ∀ y, y ∈ successors d x → y ∈ out) ∧
      (∀ x, x ∈ out → reachable d start x)
  | Raise e =>
      e = KeyError ∧
      ((∀ x, x ∈ layer → contains x d = true) → ¬ ref_integrity d)
  | OutOfFuel => False
  end.

End SimpleGraph.

Arguments M : clear implicits.
Arguments method : clear implicits.
Arguments value : clear implicits.

(** ** The graphs of the examples, over integer node identifiers *)

Module Examples.

Open Scope Z_scope.

(** [add_edge(1, 2); add_edge(1, 3); add_edge(2, 4)]. *)
Definition branching_calls : list (method Z) :=
  [AddEdge 1 2; AddEdge 1 3; AddEdge 2 4].

Definition branching : dict Z := run 0 branching_calls init.

(** The branching graph with the further edge 3 → 4. *)
Definition diamond_calls : list (method Z) :=
  [AddEdge 1 2; AddEdge 1 3; AddEdge 2 4; AddEdge 3 4].

Definition diamond : dict Z := run 0 diamond_calls init.

(** [add_edge(1, 2); del_node(2)]: node 1 keeps the successor 2. *)
Definition dangling_calls : list (method Z) := [AddEdge 1 2; DelNode 2].

Definition dangling : dict Z := run 0 dangling_calls init.

(** The cycle 1 → 2 → 3 → 1. *)
Definition triangle_calls : list (method Z) :=
  [AddEdge 1 2; AddEdge 2 3; AddEdge 3 1].

Definition triangle : dict Z := run 0 triangle_calls init.

(** A graph with the single node 5, then the self-loop 5 → 5. *)
Definition single : dict Z := run 0 [AddNode 5] init.


(** ** The script at the end of the module *)

(** [range(n)]. *)
Definition range (n : nat) : list Z := Z.of_nat <$> seq 0 n.

(** [fill_graph(graph)]: [add_edge(i, i + 1)] for [i] in [range(100)]. *)
Definition fill_graph : M Z unit :=
  for_each (range 100) tt (λ i _, add_edge i (i + 1)).

(** [fill_and_depth_trav()], on a graph of its own; the result of the
    traversal is dropped. *)
Definition fill_and_depth_trav (fuel : nat) : outcome unit :=
  ((fill_graph;; depth_first_traversal fuel 1 None;; mret tt) init).1.

(** [fill_and_breadth_trav()]. *)
Definition fill_and_breadth_trav (fuel : nat) : outcome unit :=
  ((fill_graph;; breadth_first_traversal fuel (inl 1) None;; mret tt) init).1.

(** The chain 0 → 1 → ... → 100. *)
Definition chain : dict Z :=
  ((λ i, (i, [i + 1])) <$> range 100) ++ [(100, [])].

End Examples.

(** * The other two modules of the repository *)

(** ** A dictionary with arbitrary values *)

Module PyDict.
Section PyDict.

Context {K V : Type} `{EqDecision K}.

(** [d.get(k)]. *)
Fixpoint get (k : K) (d : list (K * V)) : option V :=
  match d with
  | [] => None
  | (k', v) :: d' => if decide (k = k') then Some v else get k d'
  end.

(** [k in d]. *)
Definition has (k : K) (d : list (K * V)) : bool :=
  match get k d with Some _ => true | None => false end.

(** [d[k] = v]. *)
Fixpoint set (k : K) (v : V) (d : list (K * V)) : list (K * V) :=
  match d with
  | [] => [(k, v)]
  | (k', v') :: d' =>
      if decide (k = k') then (k, v) :: d' else (k', v') :: set k v d'
  end.

(** [d.setdefault(k, v)]. *)
Definition setdefault (k : K) (v : V) (d : list (K * V)) : list (K * V) :=
  if has k d then d else set k v d.

End PyDict.
End PyDict.

(** ** [src/trie_tree.py]

    [TrieTree._root] is a dictionary of dictionaries: one key per letter,
    and the key ["$"] under the node of every stored word.  Iterating a
    Python string yields its letters as one-letter strings, so the keys
    are letters, and the marker is the letter [dollar].  Every inner
    dictionary is created by [setdefault] or by the assignment of the
    marker and is reached through one key only, so the nesting is a tree
    and an update below a key is an update of the value of that key.
    [remove] stops in the debugger ([pdb.set_trace()]) inside its loop
    and is not modelled. *)

Module TrieTree.

(** The nested dictionaries. *)
#[local] Unset Elimination Schemes.
Inductive trie (letter : Type) : Type :=
| Dict (entries : list (letter * trie letter)).
#[local] Set Elimination Schemes.

Arguments Dict {letter} entries.

(** An argument of [insert] or [contains]: a string, or anything else. *)
Inductive pyobj (letter : Type) : Type :=
| Str (s : list letter)
| NotStr.

Arguments Str {letter} s.
Arguments NotStr {letter}.

(** The one exception [insert] raises. *)
Inductive exn : Type := TypeError.

Section TrieTree.

Context {letter : Type} `{EqDecision letter} (dollar : letter).

Definition entries (t : trie letter) : list (letter * trie letter) :=
  match t with Dict es => es end.

(** The attributes [_root] and [_size]. *)
Record state : Type := State { _root : trie letter; _size : nat }.

(** [TrieTree.__init__]. *)
Definition init : state := State (Dict []) 0.

(** The loop of [contains] and the test that follows it: [start] is the
    dictionary reached so far. *)
Fixpoint walk (value : list letter) (start : trie letter) : bool :=
  match value with
  | [] => PyDict.has dollar (entries start)
  | l :: value' =>
      match PyDict.get l (entries start) with
      | Some next => walk value' next
      | None => false
      end
  end.

(** [TrieTree.contains]. *)
Definition contains (value : pyobj letter) (self : state) : bool :=
  match value with
  | Str s => walk s (_root self)
  | NotStr => false
  end.

(** The loop of [insert] and the assignment of the marker: the
    dictionary [start] after the letters of [iter] have been entered
    below it. *)
Fixpoint enter (iter : list letter) (start : trie letter) : trie letter :=
  match iter with
  | [] => Dict (PyDict.set dollar (Dict []) (entries start))
  | l :: iter' =>
      let es := PyDict.setdefault l (Dict []) (entries start) in
      match PyDict.get l es with
      | Some next => Dict (PyDict.set l (enter iter' next) es)
      | None => Dict es
      end
  end.

(** [TrieTree.insert]. *)
Definition insert (iter : pyobj letter) (self : state) : (exn + unit) * state :=
  match iter with
  | Str s =>
      if negb (contains (Str s) self)
      then (inr tt, State (enter s (_root self)) (_size self + 1))
      else (inr tt, self)
  | NotStr => (inl TypeError, self)
  end.

(** [TrieTree.size]. *)
Definition size (self : state) : nat := _size self.

(** The state after a sequence of [insert] calls. *)
Definition insert_all (its : list (pyobj letter)) (self : state) : state :=
  foldl (λ s it, (insert it s).2) self its.

End TrieTree.
End TrieTree.

(** ** [src/binary_search_tree.py] *)

Module BinarySearchTree.
Section BinarySearchTree.

Context {val : Type} `{EqDecision val}.

(** [Node]: the constructor keeps the value and nothing else. *)
Record Node : Type := MkNode { value : val }.

(** The attributes [_values], a dictionary whose values are all [True],
    and [_root_node]. *)
Record state : Type :=
  State { _values : list (val * bool); _root_node : option Node }.

(** [BinarySearchTree.__init__]. *)
Definition init : state := State [] None.

(** [BinarySearchTree.insert]. *)
Definition insert (v : val) (self : state) : state :=
  let values := PyDict.setdefault v true (_values self) in
  match _root_node self with
  | None => State values (Some (MkNode v))
  | Some _ => State values (_root_node self)
  end.

(** The state after a sequence of [insert] calls. *)
Definition insert_all (vs : list val) (self : state) : state :=
  foldl (λ s v, insert v s) self vs.

End BinarySearchTree.
End BinarySearchTree.

(** * Properties *)

(** Unfolds the monad and its primitive operations. *)
Ltac unfold_monad :=
  unfold mbind, M_bind, mret, M_ret, raise, out_of_fuel, self_nodes,
    has_node, dict_contains, dict_getitem, dict_setitem, dict_setdefault,
    dict_delitem in *.

Section Facts.

Context {node : Type} `{EqDecision node}.

Implicit Types (d g : dict node) (k n a b x y : node) (l succ : list node).

(** ** The dictionary operations *)

Lemma mem_true x l : mem x l = true ↔ x ∈ l.
Proof. unfold mem. by rewrite bool_decide_eq_true. Qed.

Lemma mem_false x l : mem x l = false ↔ x ∉ l.
Proof. unfold mem. by rewrite bool_decide_eq_false. Qed.

Lemma contains_true k d : contains k d = true ↔ is_Some (getitem k d).
Proof.
  unfold contains. destruct (getitem k d); split; intros Hk; eauto; try done.
Qed.

Lemma contains_false k d : contains k d = false ↔ getitem k d = None.
Proof. unfold contains. by destruct (getitem k d). Qed.

Lemma contains_keys k d : contains k d = true ↔ k ∈ keys d.
Proof.
  rewrite contains_true. unfold keys. induction d as [|[k' v] d IH]; simpl.
  - split; [intros [? ?]; done | intros Hk; inversion Hk].
  - case_decide as Hkk; subst.
    + split; [intros _; left | eauto].
    + rewrite IH. split; [by right | intros Hk].
      inversion Hk; by subst.
Qed.

Lemma getitem_elem_of k v d : getitem k d = Some v → (k, v) ∈ d.
Proof.
  induction d as [|[k' v'] d IH]; simpl; [done|].
  case_decide; [intros [= <-]; subst; left | intros Hk; right; auto].
Qed.

Lemma getitem_setitem k k' v d :
  getitem k' (setitem k v d) = if decide (k' = k) then Some v else getitem k' d.
Proof.
  induction d as [|[k0 v0] d IH]; simpl.
  - repeat case_decide; congruence.
  - repeat (case_decide; simpl); subst; try congruence.
Qed.

Lemma getitem_setitem_eq k v d : getitem k (setitem k v d) = Some v.
Proof. rewrite getitem_setitem. by case_decide. Qed.

Lemma getitem_setitem_ne k k' v d :
  k' ≠ k → getitem k' (setitem k v d) = getitem k' d.
Proof. intros Hk. rewrite getitem_setitem. by case_decide. Qed.

Lemma getitem_setdefault k k' v d :
  getitem k' (setdefault k v d) =
  if decide (k' = k) then Some (default v (getitem k d)) else getitem k' d.
Proof.
  unfold setdefault, contains. destruct (getitem k d) as [v0|] eqn:Hk.
  - case_decide; by subst.
  - rewrite getitem_setitem. by case_decide.
Qed.

Lemma getitem_delitem k k' d :
  getitem k' (delitem k d) = if decide (k' = k) then None else getitem k' d.
Proof.
  unfold delitem. induction d as [|[k0 v0] d IH].
  - simpl. by case_decide.
  - rewrite filter_cons. simpl. repeat (case_decide; simpl); subst; congruence.
Qed.

Lemma contains_setitem k k' v d :
  contains k' (setitem k v d) = bool_decide (k' = k) || contains k' d.
Proof.
  unfold contains. rewrite getitem_setitem.
  case_bool_decide; case_decide; done.
Qed.

Lemma contains_setdefault k k' v d :
  contains k' (setdefault k v d) = bool_decide (k' = k) || contains k' d.
Proof.
  unfold setdefault. destruct (contains k d) eqn:Hk.
  - case_bool_decide; subst; simpl; [by rewrite Hk | done].
  - apply contains_setitem.
Qed.

Lemma contains_delitem k k' d :
  contains k' (delitem k d) = bool_decide (k' ≠ k) && contains k' d.
Proof.
  unfold contains. rewrite getitem_delitem.
  case_bool_decide; case_decide; done.
Qed.

Lemma list_remove_subseteq x l l' : list_remove x l = Some l' → l' ⊆ l.
Proof.
  revert l'. induction l as [|y l IH]; simpl; intros l'; [done|].
  case_decide.
  - intros [= <-] z Hz. by right.
  - destruct (list_remove x l) as [l0|]; simpl; [|done].
    intros [= <-] z Hz. specialize (IH _ eq_refl).
    apply elem_of_cons in Hz as [->|Hz]; [left | right; by apply IH].
Qed.

Lemma list_remove_is_Some x l : x ∈ l → is_Some (list_remove x l).
Proof.
  induction l as [|y l IH]; simpl; intros Hx; [inversion Hx|].
  case_decide; [eauto|].
  apply elem_of_cons in Hx as [->|Hx]; [done|].
  destruct (IH Hx) as [l' ->]. simpl. eauto.
Qed.

(** ** Computations that leave the dictionary alone *)

Lemma pure_ret {A} (v : A) : pure_m (mret v : M node A).
Proof. done. Qed.

Lemma pure_raise {A} e : pure_m (@raise node A e).
Proof. done. Qed.

Lemma pure_out_of_fuel {A} : pure_m (@out_of_fuel node A).
Proof. done. Qed.

Lemma pure_contains k : pure_m (dict_contains k).
Proof. done. Qed.

Lemma pure_self_nodes : pure_m (@self_nodes node).
Proof. done. Qed.

Lemma pure_getitem k : pure_m (dict_getitem k).
Proof. intros d. unfold dict_getitem. by destruct (getitem k d). Qed.

Lemma pure_bind {A B} (m : M node A) (f : A → M node B) :
  pure_m m → (∀ v, pure_m (f v)) → pure_m (m ≫= f).
Proof.
  intros Hm Hf d. unfold mbind, M_bind. specialize (Hm d).
  destruct (m d) as [[v|e|] d']; simpl in *; subst; [apply Hf | done | done].
Qed.

Lemma pure_for_each {A S} (xs : list A) (s : S) (body : A → S → M node S) :
  (∀ v s, pure_m (body v s)) → pure_m (for_each xs s body).
Proof.
  intros Hbody. revert s. induction xs as [|v xs IH]; intros s; simpl.
  - apply pure_ret.
  - apply pure_bind; auto.
Qed.

Lemma pure_run {A} (m : M node A) d : pure_m m → m d = ((m d).1, d).
Proof. intros Hm. specialize (Hm d). destruct (m d); simpl in *. by subst. Qed.

Create HintDb pure discriminated.

Hint Resolve pure_ret pure_raise pure_out_of_fuel pure_contains
  pure_self_nodes pure_getitem : pure.

Ltac solve_pure :=
  repeat first
    [ progress eauto with pure
    | apply pure_bind; [|intros ?]
    | apply pure_for_each; intros ? ?
    | match goal with
      | |- pure_m (if ?b then _ else _) => destruct b
      | |- pure_m (match ?p with (_, _) => _ end) => destruct p
      | |- pure_m (let '(_, _) := ?p in _) => destruct p
      end ].

Lemma pure_nodes : pure_m (nodes : M node (list node)).
Proof. unfold nodes. solve_pure. Qed.

Lemma pure_edges : pure_m (edges : M node (list (node * node))).
Proof. unfold edges. solve_pure. Qed.

Lemma pure_has_node n : pure_m (has_node n).
Proof. unfold has_node. solve_pure. Qed.

Lemma pure_neighbors n : pure_m (neighbors n).
Proof. unfold neighbors. solve_pure. Qed.

Lemma pure_adjacent a b : pure_m (adjacent a b).
Proof. unfold adjacent. solve_pure. Qed.

Lemma pure_depth_first_traversal fuel (start : node) prev :
  pure_m (depth_first_traversal fuel start prev).
Proof.
  revert start prev. induction fuel as [|fuel IH]; intros start prev; simpl.
  - solve_pure.
  - solve_pure.
Qed.

Lemma pure_breadth_first_traversal fuel (parent : node + list node) path_list :
  pure_m (breadth_first_traversal fuel parent path_list).
Proof.
  revert parent path_list.
  induction fuel as [|fuel IH]; intros parent path_list; simpl.
  - solve_pure.
  - destruct parent; solve_pure.
Qed.

Hint Resolve pure_nodes pure_edges pure_has_node pure_neighbors pure_adjacent
  pure_depth_first_traversal pure_breadth_first_traversal : pure.

Lemma pure_call fuel (m : method node) : is_mutation m = false → pure_m (call fuel m).
Proof. destruct m; simpl; intros Hm; try done; solve_pure. Qed.

(** ** The mutating methods, step by step *)

Lemma add_node_run n d :
  add_node n d =
  if contains n d then (Raise ValueError, d) else (Return tt, setitem n [] d).
Proof. unfold add_node. unfold_monad. by destruct (contains n d). Qed.

Lemma add_edge_run a b d :
  add_edge a b d =
  let d' := setdefault b [] (setdefault a [] d) in
  match getitem a d' with
  | Some succ =>
      if mem b succ then (Raise ValueError, d')
      else (Return tt, setitem a (succ ++ [b]) d')
  | None => (Raise KeyError, d')
  end.
Proof.
  unfold add_edge. unfold_monad. simpl.
  destruct (getitem a _) as [succ|]; [|done]. by destruct (mem b succ).
Qed.

Lemma del_node_run n d :
  del_node n d =
  if contains n d then (Return tt, delitem n d) else (Raise ValueError, d).
Proof.
  unfold del_node. unfold_monad. unfold contains.
  destruct (getitem n d) eqn:Hn; simpl; by rewrite ?Hn.
Qed.

Lemma list_remove_None x l : x ∉ l → list_remove x l = None.
Proof.
  induction l as [|y l IH]; simpl; intros Hx; [done|].
  apply not_elem_of_cons in Hx as [Hxy Hx]. case_decide; [done|].
  by rewrite IH.
Qed.

Lemma del_edge_run a b d :
  del_edge a b d =
  match getitem a d with
  | Some succ =>
      match list_remove b succ with
      | Some succ' => (Return tt, setitem a succ' d)
      | None => (Raise ValueError, d)
      end
  | None => (Raise ValueError, d)
  end.
Proof.
  unfold del_edge. unfold_monad. unfold contains.
  destruct (getitem a d) as [succ|] eqn:Ha; simpl; [|done].
  destruct (mem b succ) eqn:Hb; simpl; rewrite ?Hb, ?Ha; simpl;
    rewrite ?Hb, ?Ha; simpl.
  - by destruct (list_remove b succ).
  - apply mem_false in Hb. by rewrite list_remove_None.
Qed.

Lemma adjacent_run a b d :
  adjacent a b d =
  if contains a d && contains b d
  then (Return (mem b (default [] (getitem a d))), d)
  else (Raise KeyError, d).
Proof.
  unfold adjacent. unfold_monad. unfold contains.
  destruct (getitem a d) as [sa|] eqn:Ha, (getitem b d) as [sb|] eqn:Hb;
    simpl; rewrite ?Ha; simpl; try done.
  by destruct (mem b sa).
Qed.

(** No method other than [add_edge] leaves a key in the dictionary that
    was not there before, except [add_node] for its own argument. *)
Lemma call_creates_no_node fuel (m : method node) d k :
  (∀ n1 n2, m ≠ AddEdge n1 n2) →
  contains k (call fuel m d).2 = true →
  contains k d = true ∨ m = AddNode k.
Proof.
  intros Hm. destruct (is_mutation m) eqn:Hmut.
  - destruct m; try done; simpl; unfold mbind, M_bind.
    + rewrite add_node_run. destruct (contains n d) eqn:Hn; simpl; auto.
      rewrite contains_setitem. case_bool_decide; subst; auto.
    + by destruct (Hm n1 n2).
    + rewrite del_node_run. destruct (contains n d) eqn:Hn; simpl; auto.
      rewrite contains_delitem. intros [_ ?]%andb_prop. auto.
    + rewrite del_edge_run. destruct (getitem n1 d) as [succ|] eqn:Hn1; auto.
      destruct (list_remove n2 succ); simpl; auto.
      rewrite contains_setitem. case_bool_decide; subst; auto.
      intros _. left. apply contains_true. eauto.
  - rewrite (pure_call fuel m Hmut d). auto.
Qed.

(** ** Claims about single calls *)

(** C8: [adjacent(a, b)] raises the not-found error [KeyError] when [a]
    or [b] is absent, whatever the successor lists hold, and otherwise
    returns whether [b] is in the successor sequence of [a]; the graph
    is the same afterwards. *)
Theorem adjacent_spec g a b :
  (getitem a g = None ∨ getitem b g = None →
   adjacent a b g = (Raise KeyError, g)) ∧
  (∀ sa sb, getitem a g = Some sa → getitem b g = Some sb →
   adjacent a b g = (Return (bool_decide (b ∈ sa)), g)).
Proof.
  rewrite adjacent_run. unfold contains. split.
  - intros [-> | ->]; [done|]. by destruct (getitem a g).
  - intros sa sb -> ->. done.
Qed.

(** C7: when [a] or [b] is absent and [b] is not yet a successor of [a],
    [add_edge(a, b)] returns; an absent [a] ends up with the successors
    [[b]], an absent [b] with none, a present [a] has [b] appended, a
    present [b] and every third node keep their successors; and no other
    method creates a node, apart from [add_node] for its argument. *)
Theorem add_edge_creates_endpoints g a b :
  contains a g = false ∨ contains b g = false →
  b ∉ default [] (getitem a g) →
  ∃ g', add_edge a b g = (Return tt, g') ∧
    (contains a g = false → getitem a g' = Some [b]) ∧
    (contains b g = false → b ≠ a → getitem b g' = Some []) ∧
    (∀ sa, getitem a g = Some sa → getitem a g' = Some (sa ++ [b])) ∧
    (∀ sb, getitem b g = Some sb → b ≠ a → getitem b g' = Some sb) ∧
    (∀ c, c ≠ a → c ≠ b → getitem c g' = getitem c g) ∧
    (∀ fuel (m : method node) d k,
       (∀ n1 n2, m ≠ AddEdge n1 n2) →
       contains k (call fuel m d).2 = true →
       contains k d = true ∨ m = AddNode k).
Proof.
  intros _ Hb. rewrite add_edge_run. simpl.
  assert (getitem a (setdefault b [] (setdefault a [] g))
          = Some (default [] (getitem a g))) as Ha.
  { rewrite !getitem_setdefault. case_decide as Hab.
    - subst. case_decide; [|done].
      simpl. by destruct (getitem b g).
    - by case_decide. }
  rewrite Ha. apply mem_false in Hb. rewrite Hb.
  eexists. split; [done|].
  split; [|split; [|split; [|split; [|split]]]].
  - intros Hna%contains_false. rewrite getitem_setitem_eq. by rewrite Hna.
  - intros Hnb%contains_false Hne. rewrite getitem_setitem_ne by done.
    rewrite !getitem_setdefault. repeat case_decide; try done. by rewrite Hnb.
  - intros sa Hsa. rewrite getitem_setitem_eq. by rewrite Hsa.
  - intros sb Hsb Hne. rewrite getitem_setitem_ne by done.
    rewrite !getitem_setdefault. repeat case_decide; try done. by rewrite Hsb.
  - intros c Hca Hcb. rewrite getitem_setitem_ne by done.
    rewrite !getitem_setdefault. by repeat case_decide.
  - apply call_creates_no_node.
Qed.

(** C9: a call of [nodes], [edges], [has_node], [neighbors], [adjacent],
    [depth_first_traversal] or [breadth_first_traversal] leaves the
    dictionary as it found it, whatever the outcome of the call. *)
Theorem queries_leave_graph_unchanged fuel (m : method node) g :
  is_mutation m = false → ∃ r, call fuel m g = (r, g).
Proof.
  intros Hm. exists (call fuel m g).1. apply pure_run. by apply pure_call.
Qed.

(** ** Depth-first traversal *)

Lemma dfs_unfold fuel start prev d :
  depth_first_traversal (S fuel) start prev d =
  if contains start d then
    if mem start (default [] prev) then (Return ([], default [] prev), d)
    else
      match getitem start d with
      | Some succ =>
          for_each succ ([start], default [] prev ++ [start]) (dfs_body fuel) d
      | None => (Raise KeyError, d)
      end
  else (Raise KeyError, d).
Proof.
  simpl. unfold_monad. destruct (contains start d); simpl; [|done].
  destruct (mem start (default [] prev)); simpl; [done|].
  by destruct (getitem start d).
Qed.

Lemma dfs_prev_None fuel start d :
  depth_first_traversal fuel start None d =
  depth_first_traversal fuel start (Some []) d.
Proof. by destruct fuel. Qed.

Lemma pure_dfs_body fuel (nd : node) s : pure_m (dfs_body fuel nd s).
Proof. unfold dfs_body. destruct s. solve_pure. Qed.

Lemma dfs_body_run fuel nd path_list prev d :
  dfs_body fuel nd (path_list, prev) d =
  match (depth_first_traversal fuel nd (Some prev) d).1 with
  | Return (sub, prev') => (Return (path_list ++ sub, prev'), d)
  | Raise e => (Raise e, d)
  | OutOfFuel => (OutOfFuel, d)
  end.
Proof.
  unfold dfs_body. unfold_monad.
  rewrite (pure_run (depth_first_traversal fuel nd (Some prev)) d)
    by apply pure_depth_first_traversal.
  simpl. by destruct (depth_first_traversal fuel nd (Some prev) d).1 as [[? ?]| |].
Qed.

(** The measure of the recursion. *)

Lemma length_filter_le (P Q : node → Prop)
    `{!∀ x, Decision (P x)} `{!∀ x, Decision (Q x)} (ks : list node) :
  (∀ x, P x → Q x) → length (filter P ks) ≤ length (filter Q ks).
Proof.
  intros HPQ. induction ks as [|x ks IH]; [done|].
  rewrite !filter_cons.
  destruct (decide (P x)), (decide (Q x)); simpl; try lia. naive_solver.
Qed.

Lemma length_filter_lt (P Q : node → Prop)
    `{!∀ x, Decision (P x)} `{!∀ x, Decision (Q x)} (ks : list node) k :
  (∀ x, P x → Q x) → k ∈ ks → Q k → ¬ P k →
  length (filter P ks) < length (filter Q ks).
Proof.
  intros HPQ Hk HQ HP. induction ks as [|x ks IH]; [inversion Hk|].
  pose proof (length_filter_le P Q ks HPQ) as Hle.
  rewrite !filter_cons. apply elem_of_cons in Hk as [<-|Hk].
  - destruct (decide (P k)), (decide (Q k)); try done. simpl. lia.
  - specialize (IH Hk).
    destruct (decide (P x)), (decide (Q x)); simpl; try lia. naive_solver.
Qed.

Lemma unvisited_le d prev l : unvisited d (prev ++ l) ≤ unvisited d prev.
Proof.
  unfold unvisited. apply length_filter_le.
  intros x Hx Hin. apply Hx, elem_of_app. by left.
Qed.

Lemma unvisited_lt d prev k :
  contains k d = true → k ∉ prev → unvisited d (prev ++ [k]) < unvisited d prev.
Proof.
  intros Hk%contains_keys Hprev. unfold unvisited.
  apply length_filter_lt with k; try done.
  - intros x Hx Hin. apply Hx, elem_of_app. by left.
  - intros Hn. apply Hn, elem_of_app. right. by left.
Qed.

Lemma unvisited_bound d prev : unvisited d prev ≤ length d.
Proof.
  unfold unvisited, keys. rewrite <-(length_fmap fst d). apply length_filter.
Qed.

Lemma for_each_cons_run {A S} (v : A) (vs : list A) (s : S)
    (body : A → S → M node S) d :
  pure_m (body v s) →
  for_each (v :: vs) s body d =
  match (body v s d).1 with
  | Return s' => for_each vs s' body d
  | Raise e => (Raise e, d)
  | OutOfFuel => (OutOfFuel, d)
  end.
Proof.
  intros Hp. simpl. unfold mbind, M_bind. rewrite (pure_run _ d Hp). simpl.
  by destruct (body v s d).1.
Qed.

(** The loop over the successors of [start], given that the recursive
    calls meet [dfs_post]: [pl] is the path built so far, and the shared
    list holds [prev ++ pl]. *)
Lemma dfs_loop_post fuel d start prev :
  (∀ nd pv, unvisited d pv < fuel →
     dfs_post d nd pv (depth_first_traversal fuel nd (Some pv) d).1) →
  ∀ todo pl,
    unvisited d (prev ++ pl) < fuel →
    NoDup pl → (∀ x, x ∈ pl → x ∉ prev) → head pl = Some start →
    (∀ x succ y, x ∈ pl → x ≠ start → getitem x d = Some succ → y ∈ succ →
       contains y d = true ∧ y ∈ prev ++ pl) →
    match (for_each todo (pl, prev ++ pl) (dfs_body fuel) d).1 with
    | Return (pl', pv') =>
        pv' = prev ++ pl' ∧ NoDup pl' ∧ (∀ x, x ∈ pl' → x ∉ prev) ∧
        head pl' = Some start ∧ pl ⊆ pl' ∧
        (∀ x succ y, x ∈ pl' → x ≠ start → getitem x d = Some succ →
           y ∈ succ → contains y d = true ∧ y ∈ prev ++ pl') ∧
        (∀ y, y ∈ todo → contains y d = true ∧ y ∈ prev ++ pl')
    | Raise e =>
        e = KeyError ∧ ((∀ y, y ∈ todo → contains y d = true) → ¬ ref_integrity d)
    | OutOfFuel => False
    end.
Proof.
  intros IHf todo. induction todo as [|y todo IHt]; intros pl Hm Hnd Hdisj Hhd Hcl.
  - simpl. split_and!; auto. intros z Hz. inversion Hz.
  - rewrite for_each_cons_run by apply pure_dfs_body.
    rewrite dfs_body_run.
    specialize (IHf y (prev ++ pl) Hm).
    destruct (depth_first_traversal fuel y (Some (prev ++ pl)) d).1
      as [[sub pv1]|e|]; simpl in *; [| |done].
    + destruct IHf as (-> & Hnd1 & Hdisj1 & Hcy & Hyin & _ & Hcl1).
      rewrite <-app_assoc in *.
      assert (unvisited d (prev ++ pl ++ sub) < fuel) as Hm'.
      { pose proof (unvisited_le d (prev ++ pl) sub) as Hle.
        rewrite <-app_assoc in Hle. lia. }
      assert (NoDup (pl ++ sub)) as Hnd'.
      { apply NoDup_app. split; [done|]. split; [|done].
        intros x Hx Hx'. apply (Hdisj1 x Hx'). apply elem_of_app. by right. }
      assert (∀ x, x ∈ pl ++ sub → x ∉ prev) as Hdisj'.
      { intros x [Hx|Hx]%elem_of_app; [by apply Hdisj|].
        intros Hp. apply (Hdisj1 x Hx). apply elem_of_app. by left. }
      assert (head (pl ++ sub) = Some start) as Hhd'.
      { by destruct pl. }
      assert (∀ x succ z, x ∈ pl ++ sub → x ≠ start →
                getitem x d = Some succ → z ∈ succ →
                contains z d = true ∧ z ∈ prev ++ pl ++ sub) as Hcl'.
      { intros x succ z [Hx|Hx]%elem_of_app Hne Hg Hz.
        - destruct (Hcl x succ z Hx Hne Hg Hz) as [? Hin]. split; [done|].
          rewrite app_assoc. apply elem_of_app. by left.
        - apply (Hcl1 x succ z Hx Hg Hz). }
      specialize (IHt (pl ++ sub) Hm' Hnd' Hdisj' Hhd' Hcl').
      destruct (for_each todo (pl ++ sub, prev ++ pl ++ sub) (dfs_body fuel) d).1
        as [[pl' pv']|e|]; [| |done].
      * destruct IHt as (-> & Hnd2 & Hdisj2 & Hhd2 & Hsub & Hcl2 & Htodo).
        split_and!; auto.
        -- intros x Hx. apply Hsub, elem_of_app. by left.
        -- intros z [->|Hz]%elem_of_cons; [|by apply Htodo]. split; [done|].
           apply elem_of_app in Hyin as [Hin|Hin]; apply elem_of_app;
             [by left | right; by apply Hsub].
      * destruct IHt as [-> Href]. split; [done|].
        intros Hall. apply Href. intros z Hz. apply Hall. by right.
    + destruct IHf as [-> Href]. split; [done|].
      intros Hall. apply Href, Hall. by left.
Qed.

(** With more fuel than there are unvisited keys, a call of
    [depth_first_traversal] terminates and meets [dfs_post]. *)
Lemma dfs_correct d fuel :
  ∀ start prev, unvisited d prev < fuel →
    dfs_post d start prev (depth_first_traversal fuel start (Some prev) d).1.
Proof.
  induction fuel as [|fuel IH]; intros start prev Hm; [lia|].
  rewrite dfs_unfold. simpl.
  destruct (contains start d) eqn:Hc; [|simpl; split; [done|intros ?; congruence]].
  destruct (mem start prev) eqn:Hmem.
  - apply mem_true in Hmem. simpl. rewrite app_nil_r.
    split_and!; auto; try done; [apply NoDup_nil_2 | |].
    all: intros x; intros; match goal with H : _ ∈ [] |- _ => inversion H end.
  - apply mem_false in Hmem.
    destruct (getitem start d) as [succ|] eqn:Hg;
      [|apply contains_true in Hc as [? ?]; congruence].
    pose proof (dfs_loop_post fuel d start prev IH succ [start]) as Hloop.
    assert (unvisited d (prev ++ [start]) < fuel) as Hm'.
    { pose proof (unvisited_lt d prev start Hc Hmem). lia. }
    specialize (Hloop Hm').
    destruct (for_each succ ([start], prev ++ [start]) (dfs_body fuel) d).1
      as [[pl' pv']|e|].
    + destruct Hloop as (-> & Hnd & Hdisj & Hhd & Hsub & Hcl & Hsucc).
      * apply NoDup_singleton.
      * by intros x ->%list_elem_of_singleton.
      * done.
      * intros x ? ? ->%list_elem_of_singleton Hne. done.
      * simpl. split_and!; auto.
        -- apply elem_of_app. right. apply Hsub. by left.
        -- intros x succ' y Hx Hgx Hy. destruct (decide (x = start)) as [->|Hne].
           ++ rewrite Hg in Hgx. injection Hgx as <-. by apply Hsucc.
           ++ by apply (Hcl x succ' y).
    + destruct Hloop as [-> Href].
      * apply NoDup_singleton.
      * by intros x ->%list_elem_of_singleton.
      * done.
      * intros x ? ? ->%list_elem_of_singleton Hne. done.
      * simpl. split; [done|]. intros _ Hri. apply Href; [|done].
        intros y Hy. by apply (Hri start succ y).
    + apply Hloop.
      * apply NoDup_singleton.
      * by intros x ->%list_elem_of_singleton.
      * done.
      * intros x ? ? ->%list_elem_of_singleton Hne. done.
Qed.

(** The external call, [depth_first_traversal(start)]. *)
Lemma dfs_top d fuel start :
  length d < fuel →
  ∃ r, depth_first_traversal fuel start None d = (r, d) ∧ dfs_post d start [] r.
Proof.
  intros Hfuel. exists (depth_first_traversal fuel start None d).1. split.
  - apply pure_run, pure_depth_first_traversal.
  - rewrite dfs_prev_None. apply dfs_correct.
    pose proof (unvisited_bound d []). lia.
Qed.




(** ** Breadth-first traversal *)

Lemma bind_run {A B} (m : M node A) (f : A → M node B) d :
  pure_m m →
  (m ≫= f) d =
  match (m d).1 with
  | Return v => f v d
  | Raise e => (Raise e, d)
  | OutOfFuel => (OutOfFuel, d)
  end.
Proof.
  intros Hp. unfold mbind, M_bind. rewrite (pure_run _ d Hp). simpl.
  by destruct (m d).1.
Qed.

Lemma bfs_inner_run path_list succ children d :
  for_each succ children (bfs_inner path_list) d =
  (Return (children ++ filter (λ e, e ∉ path_list) succ), d).
Proof.
  revert children. induction succ as [|e succ IH]; intros children; simpl.
  - by rewrite app_nil_r.
  - unfold mbind, M_bind, bfs_inner at 1, mret, M_ret. rewrite IH.
    rewrite filter_cons. destruct (mem e path_list) eqn:He; simpl.
    + apply mem_true in He. rewrite decide_False; [done|]. by intros ?.
    + apply mem_false in He. rewrite decide_True by done.
      by rewrite <-app_assoc.
Qed.

Lemma pure_bfs_outer path_list (item : node) children :
  pure_m (bfs_outer path_list item children).
Proof. unfold bfs_outer, bfs_inner. solve_pure. Qed.

Lemma bfs_outer_run path_list item children d :
  bfs_outer path_list item children d =
  match getitem item d with
  | Some succ => (Return (children ++ filter (λ e, e ∉ path_list) succ), d)
  | None => (Raise KeyError, d)
  end.
Proof.
  unfold bfs_outer. unfold_monad.
  destruct (getitem item d) as [succ|]; [|done]. apply bfs_inner_run.
Qed.

(** A layer that holds a node without entry makes the loop raise. *)
Lemma bfs_layer_raises path_list parent n d :
  n ∈ parent → getitem n d = None →
  ∀ children, for_each parent children (bfs_outer path_list) d = (Raise KeyError, d).
Proof.
  intros Hn Hnone. induction parent as [|x parent IH]; intros children;
    [inversion Hn|].
  rewrite for_each_cons_run by apply pure_bfs_outer.
  rewrite bfs_outer_run. destruct (getitem x d) as [succ|] eqn:Hx; [|done].
  simpl. apply IH. apply elem_of_cons in Hn as [->|Hn]; [congruence|done].
Qed.

Lemma bfs_unfold fuel (parent : node + list node) path_list d :
  breadth_first_traversal (S fuel) parent path_list d =
  let pl0 := default [] path_list in
  let par := match parent with inl p => [p] | inr l => l end in
  let pl := match parent with inl p => pl0 ++ [p] | inr _ => pl0 end in
  match (for_each par [] (bfs_outer pl) d).1 with
  | Return children =>
      if Nat.eqb (length children) 0 then (Return (pl ++ children), d)
      else breadth_first_traversal fuel (inr children) (Some (pl ++ children)) d
  | Raise e => (Raise e, d)
  | OutOfFuel => (OutOfFuel, d)
  end.
Proof.
  destruct parent as [p|l]; simpl.
  all: rewrite bind_run; [|solve_pure].
  all: match goal with
       | |- match ?x with _ => _ end = match ?y with _ => _ end =>
           change x with y; destruct y as [v| |]; [|done|done]
       end.
  all: by destruct (length v =? 0).
Qed.

(** ** Referential integrity *)

Lemma ref_integrity_init : ref_integrity (init : dict node).
Proof. intros x succ y Hx. done. Qed.

Lemma ref_integrity_setitem k v d :
  ref_integrity d → (∀ y, y ∈ v → y = k ∨ contains y d = true) →
  ref_integrity (setitem k v d).
Proof.
  intros Hri Hv x succ y. rewrite getitem_setitem, contains_setitem.
  case_decide as Hxk.
  - intros [= <-] Hy. destruct (Hv y Hy) as [-> | ->].
    + by rewrite bool_decide_eq_true_2.
    + apply orb_true_r.
  - intros Hx Hy. rewrite (Hri x succ y Hx Hy). apply orb_true_r.
Qed.

Lemma ref_integrity_setdefault k d :
  ref_integrity d → ref_integrity (setdefault k [] d).
Proof.
  intros Hri. unfold setdefault. destruct (contains k d); [done|].
  apply ref_integrity_setitem; [done|]. intros y Hy. inversion Hy.
Qed.

Lemma referenced_false n d x succ :
  referenced n d = false → getitem x d = Some succ → x ≠ n → n ∉ succ.
Proof.
  intros Hr Hx Hne Hn. apply getitem_elem_of, list_elem_of_In in Hx.
  assert (referenced n d = true) as Ht; [|congruence].
  apply existsb_exists. exists (x, succ). split; [done|]. simpl.
  rewrite bool_decide_eq_true_2 by done. simpl. by apply mem_true.
Qed.

Lemma ref_integrity_delitem n d :
  ref_integrity d → referenced n d = false → ref_integrity (delitem n d).
Proof.
  intros Hri Hr x succ y. rewrite getitem_delitem, contains_delitem.
  case_decide as Hxn; [done|]. intros Hx Hy.
  rewrite (Hri x succ y Hx Hy), andb_true_r. apply bool_decide_eq_true_2.
  intros ->. by apply (referenced_false n d x succ).
Qed.

Lemma ref_integrity_add_edge a b d :
  ref_integrity d → ref_integrity (add_edge a b d).2.
Proof.
  intros Hri. rewrite add_edge_run. simpl.
  pose proof (ref_integrity_setdefault b _ (ref_integrity_setdefault a d Hri)) as Hri'.
  destruct (getitem a _) as [succ|] eqn:Ha; [|done].
  destruct (mem b succ); [done|]. simpl.
  apply ref_integrity_setitem; [done|].
  intros y [Hy | ->%list_elem_of_singleton]%elem_of_app; right.
  - by apply (Hri' a succ y).
  - rewrite contains_setdefault. by rewrite bool_decide_eq_true_2.
Qed.

Lemma call_state_bind_ret {A} (m : M node A) (v : value node) d :
  ((m ≫= λ _, mret v) d).2 = (m d).2.
Proof. unfold mbind, M_bind. by destruct (m d) as [[?|?|] ?]. Qed.

(** Every call keeps referential integrity, except a [del_node] of a
    node that another node still lists. *)
Lemma call_ref_integrity fuel (m : method node) d :
  ref_integrity d →
  match m with DelNode n => referenced n d = false | _ => True end →
  ref_integrity (call fuel m d).2.
Proof.
  intros Hri Hm. destruct (is_mutation m) eqn:Hmut;
    [|by rewrite (pure_call fuel m Hmut d)].
  destruct m; try done; simpl; rewrite call_state_bind_ret.
  - rewrite add_node_run. destruct (contains n d); [done|]. simpl.
    apply ref_integrity_setitem; [done|]. intros y Hy. inversion Hy.
  - by apply ref_integrity_add_edge.
  - rewrite del_node_run. destruct (contains n d); [|done]. simpl.
    by apply ref_integrity_delitem.
  - rewrite del_edge_run. destruct (getitem n1 d) as [succ|] eqn:Hn1; [|done].
    destruct (list_remove n2 succ) as [succ'|] eqn:Hrm; [|done]. simpl.
    apply ref_integrity_setitem; [done|]. intros y Hy. right.
    apply (Hri n1 succ y Hn1). by apply (list_remove_subseteq n2 succ succ').
Qed.

Lemma run_ref_integrity fuel (ms : list (method node)) d :
  ref_integrity d → no_dangling_delete fuel ms d = true →
  ref_integrity (run fuel ms d).
Proof.
  revert d. induction ms as [|m ms IH]; intros d Hri; simpl; [done|].
  intros [Hm Hms]%andb_prop. apply IH; [|done].
  apply call_ref_integrity; [done|]. destruct m; try done.
  by apply negb_true_iff.
Qed.

Lemma ref_integrity_b_sound d : ref_integrity_b d = true → ref_integrity d.
Proof.
  unfold ref_integrity_b. rewrite forallb_forall. intros Hall x succ y Hx Hy.
  apply getitem_elem_of, list_elem_of_In in Hx. specialize (Hall _ Hx).
  simpl in Hall. rewrite forallb_forall in Hall. apply Hall.
  by apply list_elem_of_In.
Qed.

(** ** Reachable dictionaries have one entry per key *)

Lemma keys_setitem k v d :
  keys (setitem k v d) = if contains k d then keys d else keys d ++ [k].
Proof.
  unfold keys, contains. induction d as [|[k' v'] d IH]; [done|].
  cbn [setitem getitem]. case_decide as Hk; [by subst|].
  rewrite !fmap_cons, IH. by destruct (getitem k d).
Qed.

Lemma keys_delitem k d : keys (delitem k d) = filter (λ x, x ≠ k) (keys d).
Proof.
  unfold keys, delitem. induction d as [|[k' v'] d IH]; [done|].
  rewrite fmap_cons, !filter_cons. cbn [fst].
  case_decide; rewrite ?fmap_cons, IH; done.
Qed.

Lemma unique_keys_setitem k v d : unique_keys d → unique_keys (setitem k v d).
Proof.
  unfold unique_keys. rewrite keys_setitem. intros Hd.
  destruct (contains k d) eqn:Hk; [done|].
  apply NoDup_app. split; [done|]. split; [|apply NoDup_singleton].
  intros x Hx ->%list_elem_of_singleton.
  apply contains_keys in Hx. congruence.
Qed.

Lemma unique_keys_setdefault k v d :
  unique_keys d → unique_keys (setdefault k v d).
Proof.
  unfold setdefault. destruct (contains k d); [done|]. apply unique_keys_setitem.
Qed.

Lemma unique_keys_delitem k d : unique_keys d → unique_keys (delitem k d).
Proof. unfold unique_keys. rewrite keys_delitem. apply NoDup_filter. Qed.

Lemma call_unique_keys fuel (m : method node) d :
  unique_keys d → unique_keys (call fuel m d).2.
Proof.
  intros Hd. destruct (is_mutation m) eqn:Hmut;
    [|by rewrite (pure_call fuel m Hmut d)].
  destruct m; try done; simpl; rewrite call_state_bind_ret.
  - rewrite add_node_run. destruct (contains n d); [done|].
    by apply unique_keys_setitem.
  - rewrite add_edge_run. simpl.
    pose proof (unique_keys_setdefault n2 [] _ (unique_keys_setdefault n1 [] d Hd)).
    destruct (getitem n1 _) as [succ|]; [|done].
    destruct (mem n2 succ); [done|]. by apply unique_keys_setitem.
  - rewrite del_node_run. destruct (contains n d); [|done].
    by apply unique_keys_delitem.
  - rewrite del_edge_run. destruct (getitem n1 d) as [succ|]; [|done].
    destruct (list_remove n2 succ); [|done]. by apply unique_keys_setitem.
Qed.

Lemma run_unique_keys fuel (ms : list (method node)) d :
  unique_keys d → unique_keys (run fuel ms d).
Proof.
  revert d. induction ms as [|m ms IH]; intros d Hd; simpl; [done|].
  by apply IH, call_unique_keys.
Qed.

(** ** Failing calls *)

(** After both [setdefault] calls of [add_edge(a, b)], the entry of [a]
    is what it was, or empty if there was none. *)
Lemma getitem_add_edge_source a b d :
  getitem a (setdefault b [] (setdefault a [] d)) = Some (default [] (getitem a d)).
Proof.
  rewrite !getitem_setdefault. case_decide as Hab.
  - subst. case_decide; [|done]. simpl. by destruct (getitem b d).
  - by case_decide.
Qed.

(** A failing [add_edge(a, b)] found [a] present with [b] among its
    successors, and leaves behind the dictionary with [b] created if it
    was absent. *)
Lemma failed_add_edge_state a b d :
  is_return (add_edge a b d).1 = false →
  add_edge a b d = (Raise ValueError, setdefault b [] d) ∧
  contains a d = true ∧ b ∈ default [] (getitem a d).
Proof.
  rewrite add_edge_run. simpl. rewrite getitem_add_edge_source.
  destruct (mem b _) eqn:Hb; [|done]. intros _. apply mem_true in Hb.
  assert (contains a d = true) as Ha.
  { unfold contains. destruct (getitem a d); [done|]. inversion Hb. }
  unfold setdefault at 2. by rewrite Ha.
Qed.

(** Every other method leaves the dictionary alone when it fails. *)
Lemma failed_call_keeps_graph fuel (m : method node) d :
  (∀ n1 n2, m ≠ AddEdge n1 n2) →
  is_return (call fuel m d).1 = false → (call fuel m d).2 = d.
Proof.
  intros Hm. destruct (is_mutation m) eqn:Hmut; [|by rewrite (pure_call fuel m Hmut d)].
  destruct m; try done; simpl; unfold mbind, M_bind.
  - rewrite add_node_run. by destruct (contains n d).
  - by destruct (Hm n1 n2).
  - rewrite del_node_run. by destruct (contains n d).
  - rewrite del_edge_run. destruct (getitem n1 d) as [succ|]; [|done].
    by destruct (list_remove n2 succ).
Qed.

(** ** Claims about traversals and reachable states *)



Lemma bfs_layer_call_raises fuel layer path_list n d :
  n ∈ layer → getitem n d = None →
  breadth_first_traversal (S fuel) (inr layer) (Some path_list) d
  = (Raise KeyError, d).
Proof.
  intros Hn Hnone. rewrite bfs_unfold. cbv zeta. cbn [default].
  by rewrite (bfs_layer_raises _ layer n d Hn Hnone).
Qed.

(** C4, as the code has it: when a present node [m] lists a successor
    [n] that has no entry, [depth_first_traversal(m)] and
    [breadth_first_traversal(m)] both end with the not-found error
    [KeyError], for every recursion budget above the number of entries;
    the graph is left as it was. *)
Theorem traversals_raise_on_dangling g m n succ fuel :
  getitem m g = Some succ → n ∈ succ → getitem n g = None →
  length g < fuel →
  depth_first_traversal fuel m None g = (Raise KeyError, g) ∧
  breadth_first_traversal fuel (inl m) None g = (Raise KeyError, g).
Proof.
  intros Hm Hn Hnone Hfuel. split.
  - destruct (dfs_top g fuel m Hfuel) as (r & Hrun & Hpost). rewrite Hrun.
    destruct r as [[path prev]|e|]; simpl in Hpost; [| |done].
    + destruct Hpost as (-> & _ & _ & _ & _ & Hhd & Hcl).
      specialize (Hhd (not_elem_of_nil _)).
      assert (m ∈ path) as Hin by (destruct path; simpl in *; simplify_eq; left).
      destruct (Hcl m succ n Hin Hm Hn) as [Hc _].
      apply contains_true in Hc as [? ?]. congruence.
    + by destruct Hpost as [-> _].
  - assert (1 ≤ length g) by (destruct g; simpl in *; [done|lia]).
    destruct fuel as [|[|fuel]]; [lia|lia|].
    rewrite bfs_unfold. cbv zeta. cbn [default app].
    rewrite for_each_cons_run by apply pure_bfs_outer.
    rewrite bfs_outer_run, Hm. cbn [fst for_each app]. unfold mret, M_ret.
    cbn [fst].
    assert (n ∈ filter (λ e, e ∉ [m]) succ) as Hchild.
    { apply list_elem_of_filter. split; [|done].
      intros ->%list_elem_of_singleton. congruence. }
    destruct (filter (λ e, e ∉ [m]) succ) as [|c children] eqn:Hf;
      [inversion Hchild|].
    cbn [length Nat.eqb]. by apply bfs_layer_call_raises with n.
Qed.

(** C3, as the code has it: referential integrity holds after every
    sequence of calls, started on the empty graph, in which [del_node(n)]
    is only issued while no other node lists [n] as a successor. *)
Theorem ref_integrity_without_dangling_delete fuel (ms : list (method node)) :
  no_dangling_delete fuel ms init = true → ref_integrity (run fuel ms init).
Proof. apply run_ref_integrity, ref_integrity_init. Qed.

(** * Further properties of the methods *)

(** ** Dictionary equations used below *)

Lemma setitem_absent k v d : contains k d = false → setitem k v d = d ++ [(k, v)].
Proof.
  unfold contains. induction d as [|[k' v'] d IH]; simpl; [done|].
  case_decide; [done|]. intros Hk. by rewrite IH.
Qed.

Lemma setitem_id k v d : getitem k d = Some v → setitem k v d = d.
Proof.
  induction d as [|[k' v'] d IH]; simpl; [done|].
  case_decide; [by intros [= ->]; subst | intros Hk; by rewrite IH].
Qed.

Lemma setitem_setitem k v v' d : setitem k v (setitem k v' d) = setitem k v d.
Proof.
  induction d as [|[k0 v0] d IH]; simpl.
  - by rewrite decide_True.
  - case_decide; simpl; [by rewrite decide_True|].
    rewrite decide_False by done. by rewrite IH.
Qed.

Lemma delitem_absent k d : contains k d = false → delitem k d = d.
Proof.
  unfold contains, delitem. induction d as [|[k' v'] d IH]; [done|].
  cbn [getitem]. case_decide as Hk; [done|]. intros Hd.
  rewrite filter_cons. cbn [fst]. rewrite decide_True by done. by rewrite IH.
Qed.

Lemma delitem_setitem_absent k v d :
  contains k d = false → delitem k (setitem k v d) = d.
Proof.
  intros Hk. rewrite setitem_absent by done. unfold delitem.
  rewrite filter_app. fold (delitem k d). rewrite delitem_absent by done.
  rewrite filter_cons. cbn [fst]. rewrite decide_False by (by intros ?).
  by rewrite filter_nil, app_nil_r.
Qed.

Lemma setdefault_present k v d : contains k d = true → setdefault k v d = d.
Proof. unfold setdefault. by intros ->. Qed.

Lemma list_remove_first x l l' :
  list_remove x l = Some l' ↔ ∃ l1 l2, l = l1 ++ x :: l2 ∧ (x ∉ l1) ∧ l' = l1 ++ l2.
Proof.
  revert l'. induction l as [|y l IH]; intros l'; simpl.
  - split; [done|]. intros (l1 & l2 & Hl & _). by destruct l1.
  - case_decide as Hxy.
    + subst. split.
      * intros [= <-]. exists [], l. split; [done|]. split; [|done].
        apply not_elem_of_nil.
      * intros (l1 & l2 & Hl & Hx & ->). destruct l1 as [|z l1].
        -- by injection Hl as ->.
        -- injection Hl as -> _. destruct Hx. left.
    + split.
      * destruct (list_remove x l) as [l0|] eqn:Hrm; simpl; [|done].
        intros [= <-]. destruct (proj1 (IH l0) eq_refl) as (l1 & l2 & -> & Hx & ->).
        exists (y :: l1), l2. split; [done|]. split; [|done].
        apply not_elem_of_cons. done.
      * intros (l1 & l2 & Hl & Hx & ->). destruct l1 as [|z l1].
        -- injection Hl as -> _. done.
        -- injection Hl as -> ->. apply not_elem_of_cons in Hx as [_ Hx].
           rewrite (proj2 (IH (l1 ++ l2))); [done|]. by exists l1, l2.
Qed.

Lemma list_remove_app_last x l : x ∉ l → list_remove x (l ++ [x]) = Some l.
Proof.
  intros Hx. apply list_remove_first. exists l, []. by rewrite app_nil_r.
Qed.

(** ** Single calls and their inverses *)

(** X1: [add_node(n)] on an absent [n] returns and appends an entry with
    no successors: [nodes()] then lists [n] last, [has_node(n)] is true,
    [neighbors(n)] is empty, every other entry is as before, and a second
    [add_node(n)] raises [ValueError] and changes nothing. *)
Theorem add_node_appends_isolated_node d n :
  contains n d = false →
  ∃ d', add_node n d = (Return tt, d') ∧
    nodes d' = (Return (keys d ++ [n]), d') ∧
    has_node n d' = (Return true, d') ∧
    neighbors n d' = (Return [], d') ∧
    (∀ m, m ≠ n → getitem m d' = getitem m d) ∧
    add_node n d' = (Raise ValueError, d').
Proof.
  intros Hn. rewrite add_node_run, Hn. eexists. split; [done|].
  assert (contains n (setitem n [] d) = true) as Hc.
  { rewrite contains_setitem. by rewrite bool_decide_eq_true_2. }
  split_and!.
  - unfold nodes. unfold_monad. by rewrite keys_setitem, Hn.
  - unfold has_node, dict_contains. by rewrite Hc.
  - unfold neighbors. unfold_monad. rewrite Hc. by rewrite getitem_setitem_eq.
  - intros m Hm. by apply getitem_setitem_ne.
  - by rewrite add_node_run, Hc.
Qed.

(** X2: [del_node(n)] on a present [n] returns and removes the entry of
    [n] and nothing else: [has_node(n)] is false afterwards, [nodes()]
    lists the other nodes in their order, and every other node keeps its
    successor list, also where it mentions [n]; a second [del_node(n)]
    raises [ValueError] and changes nothing. *)
Theorem del_node_removes_entry_only d n :
  contains n d = true →
  ∃ d', del_node n d = (Return tt, d') ∧
    has_node n d' = (Return false, d') ∧
    nodes d' = (Return (filter (λ m, m ≠ n) (keys d)), d') ∧
    (∀ m, m ≠ n → getitem m d' = getitem m d) ∧
    del_node n d' = (Raise ValueError, d').
Proof.
  intros Hn. rewrite del_node_run, Hn. eexists. split; [done|].
  assert (contains n (delitem n d) = false) as Hc.
  { rewrite contains_delitem. by rewrite bool_decide_eq_false_2 by (by intros ?). }
  split_and!.
  - unfold has_node, dict_contains. by rewrite Hc.
  - unfold nodes. unfold_monad. by rewrite keys_delitem.
  - intros m Hm. rewrite getitem_delitem. by rewrite decide_False.
  - by rewrite del_node_run, Hc.
Qed.

(** X3: on an absent [n], [add_node(n)] followed by [del_node(n)] returns
    and gives back the graph it started from, entry for entry. *)
Theorem add_node_del_node_round_trip d n :
  contains n d = false → (add_node n;; del_node n) d = (Return tt, d).
Proof.
  intros Hn. unfold mbind, M_bind. rewrite add_node_run, Hn, del_node_run.
  rewrite contains_setitem, bool_decide_eq_true_2 by done. simpl.
  by rewrite delitem_setitem_absent.
Qed.

(** X4: [del_edge(a, b)] on a present edge returns and removes the first
    occurrence of [b] from the successor list of [a]; the other entries
    and the order of the nodes are as before, and when [b] was listed
    only once [adjacent(a, b)] no longer finds it. *)
Theorem del_edge_removes_first_occurrence d a b succ :
  getitem a d = Some succ → b ∈ succ →
  ∃ l1 l2 d', succ = l1 ++ b :: l2 ∧ (b ∉ l1) ∧
    del_edge a b d = (Return tt, d') ∧
    getitem a d' = Some (l1 ++ l2) ∧
    (∀ m, m ≠ a → getitem m d' = getitem m d) ∧
    keys d' = keys d ∧
    (NoDup succ → has_edge d' a b = false).
Proof.
  intros Ha Hb. destruct (list_remove_is_Some b succ Hb) as [succ' Hrm].
  destruct (proj1 (list_remove_first b succ succ') Hrm) as (l1 & l2 & -> & Hl1 & ->).
  exists l1, l2. eexists. split; [done|]. split; [done|].
  rewrite del_edge_run, Ha, Hrm. split; [done|]. split_and!.
  - apply getitem_setitem_eq.
  - intros m Hm. by apply getitem_setitem_ne.
  - rewrite keys_setitem. unfold contains. by rewrite Ha.
  - intros Hnd. unfold has_edge. rewrite getitem_setitem_eq.
    apply mem_false. apply NoDup_app in Hnd as (_ & _ & Hnd).
    apply NoDup_cons in Hnd as [Hl2 _].
    intros [?|?]%elem_of_app; done.
Qed.

(** X5: [del_edge(a, b)] raises [ValueError] and changes nothing when
    [a] has no entry or does not list [b]; whether [b] itself is a node
    of the graph plays no role. *)
Theorem del_edge_missing_edge d a b :
  b ∉ successors d a → del_edge a b d = (Raise ValueError, d).
Proof.
  unfold successors. intros Hb. rewrite del_edge_run.
  destruct (getitem a d) as [succ|]; [|done]. simpl in Hb.
  by rewrite list_remove_None.
Qed.

(** X6: when [b] is not yet a successor of [a], [add_edge(a, b)]
    followed by [del_edge(a, b)] returns and leaves the graph it started
    from, plus an entry without successors for each endpoint that was
    absent; with both endpoints present the graph is exactly as before. *)
Theorem add_edge_del_edge_round_trip d a b :
  b ∉ successors d a →
  (add_edge a b;; del_edge a b) d
  = (Return tt, setdefault b [] (setdefault a [] d)) ∧
  (contains a d = true → contains b d = true →
   (add_edge a b;; del_edge a b) d = (Return tt, d)).
Proof.
  unfold successors. intros Hb.
  assert ((add_edge a b;; del_edge a b) d
          = (Return tt, setdefault b [] (setdefault a [] d))) as Hrun.
  { unfold mbind, M_bind. rewrite add_edge_run. cbv zeta.
    pose proof (getitem_add_edge_source a b d) as Hsrc. rewrite Hsrc.
    apply mem_false in Hb. rewrite Hb. rewrite del_edge_run.
    rewrite getitem_setitem_eq. apply mem_false in Hb.
    rewrite list_remove_app_last by done.
    by rewrite setitem_setitem, (setitem_id _ _ _ Hsrc). }
  split; [done|]. intros Hca Hcb. rewrite Hrun.
  rewrite (setdefault_present a) by done. by rewrite setdefault_present.
Qed.

(** X7: after an [add_edge(a, b)] that returned, [adjacent(a, b)] is
    true, [neighbors(a)] ends with [b], and a second [add_edge(a, b)]
    raises [ValueError] and leaves the graph as the first call left it. *)
Theorem add_edge_twice_raises d a b :
  b ∉ successors d a →
  ∃ d', add_edge a b d = (Return tt, d') ∧
    adjacent a b d' = (Return true, d') ∧
    neighbors a d' = (Return (successors d a ++ [b]), d') ∧
    add_edge a b d' = (Raise ValueError, d').
Proof.
  unfold successors. intros Hb. rewrite add_edge_run. cbv zeta.
  rewrite getitem_add_edge_source. apply mem_false in Hb. rewrite Hb.
  set (d0 := setdefault b [] (setdefault a [] d)).
  set (d' := setitem a _ d0). exists d'. split; [done|].
  assert (getitem a d' = Some (default [] (getitem a d) ++ [b])) as Ha
    by apply getitem_setitem_eq.
  assert (contains a d' = true) as Hca by (unfold contains; by rewrite Ha).
  assert (contains b d' = true) as Hcb.
  { unfold d', d0. rewrite contains_setitem, contains_setdefault.
    rewrite (bool_decide_eq_true_2 (b = b)) by done. apply orb_true_r. }
  assert (mem b (default [] (getitem a d) ++ [b]) = true) as Hmem.
  { apply mem_true, elem_of_app. right. left. }
  split_and!.
  - rewrite adjacent_run, Hca, Hcb, Ha. simpl. by rewrite Hmem.
  - unfold neighbors. unfold_monad. by rewrite Hca, Ha.
  - rewrite add_edge_run. cbv zeta.
    rewrite !setdefault_present by (by rewrite ?setdefault_present).
    by rewrite Ha, Hmem.
Qed.

(** X8: [neighbors(a)] raises [ValueError] on an absent node, where
    [adjacent] raises [KeyError]; on a present node it returns the very
    list that [adjacent(a, b)] searches for any present [b]. *)
Theorem neighbors_agrees_with_adjacent d a :
  (contains a d = false →
   neighbors a d = (Raise ValueError, d) ∧
   ∀ b, adjacent a b d = (Raise KeyError, d)) ∧
  (contains a d = true →
   ∃ succ, neighbors a d = (Return succ, d) ∧
     ∀ b, contains b d = true →
       adjacent a b d = (Return (bool_decide (b ∈ succ)), d)).
Proof.
  split; intros Ha.
  - split.
    + unfold neighbors. unfold_monad. by rewrite Ha.
    + intros b. by rewrite adjacent_run, Ha.
  - pose proof Ha as [succ Hs]%contains_true. exists succ. split.
    + unfold neighbors. unfold_monad. by rewrite Ha, Hs.
    + intros b Hb. by rewrite adjacent_run, Ha, Hb, Hs.
Qed.

(** ** [nodes], [edges] and the invariants of reachable graphs *)

Lemma no_parallel_edges_init : no_parallel_edges (init : dict node).
Proof. intros x succ Hx. done. Qed.

Lemma no_parallel_edges_setitem k v d :
  no_parallel_edges d → NoDup v → no_parallel_edges (setitem k v d).
Proof.
  intros Hd Hv x succ. rewrite getitem_setitem. case_decide.
  - by intros [= <-].
  - apply Hd.
Qed.

Lemma no_parallel_edges_setdefault k d :
  no_parallel_edges d → no_parallel_edges (setdefault k [] d).
Proof.
  intros Hd. unfold setdefault. destruct (contains k d); [done|].
  apply no_parallel_edges_setitem; [done|]. apply NoDup_nil_2.
Qed.

Lemma no_parallel_edges_delitem k d :
  no_parallel_edges d → no_parallel_edges (delitem k d).
Proof.
  intros Hd x succ. rewrite getitem_delitem. case_decide; [done|]. apply Hd.
Qed.

Lemma call_no_parallel_edges fuel (m : method node) d :
  no_parallel_edges d → no_parallel_edges (call fuel m d).2.
Proof.
  intros Hd. destruct (is_mutation m) eqn:Hmut;
    [|by rewrite (pure_call fuel m Hmut d)].
  destruct m; try done; simpl; rewrite call_state_bind_ret.
  - rewrite add_node_run. destruct (contains n d); [done|].
    apply no_parallel_edges_setitem; [done|]. apply NoDup_nil_2.
  - rewrite add_edge_run. cbv zeta.
    pose proof (no_parallel_edges_setdefault n2 _
                  (no_parallel_edges_setdefault n1 d Hd)) as Hd'.
    destruct (getitem n1 _) as [succ|] eqn:Hn1; [|done].
    destruct (mem n2 succ) eqn:Hn2; [done|]. simpl.
    apply no_parallel_edges_setitem; [done|]. apply mem_false in Hn2.
    apply NoDup_app. split; [by apply (Hd' n1)|]. split; [|apply NoDup_singleton].
    by intros x Hx ->%list_elem_of_singleton.
  - rewrite del_node_run. destruct (contains n d); [|done].
    by apply no_parallel_edges_delitem.
  - rewrite del_edge_run. destruct (getitem n1 d) as [succ|] eqn:Hn1; [|done].
    destruct (list_remove n2 succ) as [succ'|] eqn:Hrm; [|done]. simpl.
    apply no_parallel_edges_setitem; [done|].
    apply list_remove_first in Hrm as (l1 & l2 & -> & _ & ->).
    pose proof (Hd n1 _ Hn1) as Hnd.
    apply NoDup_app in Hnd as (Hl1 & Hdisj & Hl2).
    apply NoDup_cons in Hl2 as [_ Hl2].
    apply NoDup_app. split; [done|]. split; [|done].
    intros x Hx Hx2. apply (Hdisj x Hx). by right.
Qed.

Lemma run_no_parallel_edges fuel (ms : list (method node)) d :
  no_parallel_edges d → no_parallel_edges (run fuel ms d).
Proof.
  revert d. induction ms as [|m ms IH]; intros d Hd; simpl; [done|].
  by apply IH, call_no_parallel_edges.
Qed.

(** X9: in every graph built from the empty one by calls of the form
    [method] offers, that is the public methods applied to nodes, with
    the traversals given their start node only and the lists handed out
    by [neighbors] left as they are by the caller, [nodes()] lists no
    node twice, [has_node(n)] is true exactly for the nodes it lists, and
    no successor list returned by [neighbors] holds a node twice.  A
    caller that passes such a list as the second argument of a traversal
    makes the traversal append to it; that call form is not covered. *)
Theorem reachable_graph_has_no_repetition fuel (ms : list (method node)) :
  let d := run fuel ms init in
  ∃ l, nodes d = (Return l, d) ∧ NoDup l ∧
    (∀ n, has_node n d = (Return (bool_decide (n ∈ l)), d)) ∧
    (∀ n succ, neighbors n d = (Return succ, d) → NoDup succ).
Proof.
  intros d. exists (keys d). split; [done|].
  split; [apply run_unique_keys, NoDup_nil_2|]. split.
  - intros n. unfold has_node, dict_contains. do 2 f_equal.
    destruct (contains n d) eqn:Hn; symmetry.
    + by apply bool_decide_eq_true_2, contains_keys.
    + apply bool_decide_eq_false_2. rewrite <-contains_keys. congruence.
  - intros n succ. unfold neighbors. unfold_monad.
    destruct (contains n d); [|done].
    destruct (getitem n d) as [succ'|] eqn:Hg; [|done]. intros [= <-].
    by apply (run_no_parallel_edges fuel ms init no_parallel_edges_init n).
Qed.

Lemma edges_inner_run (start : node) ends (acc : list (node * node)) d :
  for_each ends acc (λ end_ tup_lst, mret (tup_lst ++ [(start, end_)])) d
  = (Return (acc ++ ((start,.) <$> ends)), d).
Proof.
  revert acc. induction ends as [|e ends IH]; intros acc; simpl.
  - by rewrite app_nil_r.
  - unfold mbind, M_bind, mret, M_ret at 1. rewrite IH.
    by rewrite <-app_assoc.
Qed.

Lemma edges_outer_run ks (acc : list (node * node)) d :
  (∀ k, k ∈ ks → contains k d = true) →
  for_each ks acc (λ start tup_lst,
    ends ← dict_getitem start;
    for_each ends tup_lst (λ end_ tup_lst, mret (tup_lst ++ [(start, end_)]))) d
  = (Return (acc ++ (ks ≫= λ k, (k,.) <$> successors d k)), d).
Proof.
  revert acc. induction ks as [|k ks IH]; intros acc Hks; simpl.
  - by rewrite app_nil_r.
  - assert (contains k d = true) as [succ Hk]%contains_true by (apply Hks; left).
    unfold mbind at 1, M_bind at 1. unfold mbind at 1, M_bind at 1.
    unfold dict_getitem at 1. rewrite Hk, edges_inner_run.
    rewrite IH by (intros k' Hk'; apply Hks; by right).
    unfold successors at 2. rewrite Hk. simpl. by rewrite <-app_assoc.
Qed.

Lemma edges_run d : edges d = (Return (edge_list d), d).
Proof.
  unfold edges, self_nodes. unfold mbind at 1, M_bind at 1.
  rewrite edges_outer_run; [done|]. intros k. apply contains_keys.
Qed.

Lemma elem_of_edge_list d a b :
  (a, b) ∈ edge_list d ↔ ∃ succ, getitem a d = Some succ ∧ b ∈ succ.
Proof.
  unfold edge_list. rewrite list_elem_of_bind. split.
  - intros (k & Hab & Hk). apply list_elem_of_fmap in Hab as (y & [= -> ->] & Hy).
    apply contains_keys, contains_true in Hk as [succ Hk].
    exists succ. split; [done|]. unfold successors in Hy. by rewrite Hk in Hy.
  - intros (succ & Ha & Hb). exists a. split.
    + apply list_elem_of_fmap. exists b. split; [done|].
      unfold successors. by rewrite Ha.
    + apply contains_keys, contains_true. eauto.
Qed.

(** X10: [edges()] never raises and leaves the graph alone; it returns,
    key by key in the order of [nodes()], the pairs of a node and each of
    its successors, so that [(a, b)] is in the result exactly when [a] is
    present and lists [b]. *)
Theorem edges_lists_every_edge d :
  ∃ es, edges d = (Return es, d) ∧
    es = (keys d ≫= λ k, (k,.) <$> successors d k) ∧
    ∀ a b, (a, b) ∈ es ↔ ∃ succ, getitem a d = Some succ ∧ b ∈ succ.
Proof.
  exists (edge_list d). split; [apply edges_run|]. split; [done|].
  apply elem_of_edge_list.
Qed.

Lemma edge_list_NoDup d :
  unique_keys d → no_parallel_edges d → NoDup (edge_list d).
Proof.
  unfold unique_keys, edge_list. intros Hk Hd.
  assert (∀ k, NoDup (successors d k)) as Hs.
  { intros k. unfold successors. destruct (getitem k d) eqn:Hg; simpl.
    - by apply (Hd k). - apply NoDup_nil_2. }
  induction Hk as [|k ks Hk Hks IH]; [apply NoDup_nil_2|].
  rewrite bind_cons. apply NoDup_app. split_and!; [|
    |done].
  - apply NoDup_fmap_2; [|done]. by intros ?? [=].
  - intros [a b] (y & [= -> ->] & _)%list_elem_of_fmap.
    intros (k' & (y' & [= <- <-] & _)%list_elem_of_fmap & Hk')%list_elem_of_bind.
    done.
Qed.

(** X11: in every graph built from the empty one by calls of the form
    [method] offers, that is the public methods applied to nodes, with
    the traversals given their start node only and the lists handed out
    by [neighbors] left as they are by the caller, [edges()] returns
    every edge exactly once.  The call form in which a caller passes such
    a list as the second argument of a traversal is not covered. *)
Theorem reachable_graph_edges_once fuel (ms : list (method node)) :
  let d := run fuel ms init in
  ∃ es, edges d = (Return es, d) ∧ NoDup es ∧
    ∀ a b, (a, b) ∈ es ↔ has_edge d a b = true.
Proof.
  intros d. exists (edge_list d).
  pose proof (elem_of_edge_list d) as Hin. split; [apply edges_run|]. split.
  - apply edge_list_NoDup.
    + apply run_unique_keys, NoDup_nil_2.
    + apply run_no_parallel_edges, no_parallel_edges_init.
  - intros a b. rewrite Hin. unfold has_edge. split.
    + intros (succ & -> & Hb). by apply mem_true.
    + destruct (getitem a d) as [succ|]; [|done].
      intros Hb%mem_true. eauto.
Qed.

(** X12: a call that does not return leaves the graph exactly as it was,
    for every method other than [add_edge], and for [add_edge] too when
    every listed successor has an entry. *)
Theorem failing_call_leaves_graph fuel (m : method node) d :
  ref_integrity d ∨ (∀ n1 n2, m ≠ AddEdge n1 n2) →
  is_return (call fuel m d).1 = false → (call fuel m d).2 = d.
Proof.
  intros [Hri|Hm]; [|by apply failed_call_keeps_graph].
  destruct m; try (apply failed_call_keeps_graph; done).
  simpl. unfold mbind, M_bind.
  destruct (add_edge n1 n2 d) as [[[]|e|] d'] eqn:Hrun; simpl; [done| |].
  - intros _.
    destruct (failed_add_edge_state n1 n2 d) as (Hst & Ha & Hb);
      [by rewrite Hrun|].
    rewrite Hrun in Hst. injection Hst as _ ->.
    apply setdefault_present.
    apply contains_true in Ha as [succ Ha]. rewrite Ha in Hb.
    by apply (Hri n1 succ n2).
  - intros _.
    destruct (failed_add_edge_state n1 n2 d) as (Hst & _); [by rewrite Hrun|].
    rewrite Hrun in Hst. done.
Qed.

(** ** What the traversals return *)

Lemma edge_intro d a b succ : getitem a d = Some succ → b ∈ succ → edge d a b.
Proof. intros Ha Hb. unfold edge, has_edge. rewrite Ha. by apply mem_true. Qed.

Lemma edge_successors d a b : edge d a b ↔ b ∈ successors d a.
Proof.
  unfold edge, has_edge, successors. destruct (getitem a d); simpl.
  - apply mem_true.
  - split; [done|]. intros Hb. inversion Hb.
Qed.

(** A set that holds [start] and the successors of its members holds
    every node reachable from [start]. *)
Lemma reachable_closed d start (P : node → Prop) :
  P start → (∀ x y, P x → y ∈ successors d x → P y) →
  ∀ x, reachable d start x → P x.
Proof.
  intros Hstart Hcl. apply rtc_ind_r; [done|].
  intros y z _ Hyz Hy. apply (Hcl y z Hy). by apply edge_successors.
Qed.

Lemma dfs_loop_sound fuel d :
  (∀ start prev path prev',
     (depth_first_traversal fuel start (Some prev) d).1 = Return (path, prev') →
     ∀ x, x ∈ path → reachable d start x) →
  ∀ todo pl pv pl' pv',
    (for_each todo (pl, pv) (dfs_body fuel) d).1 = Return (pl', pv') →
    ∀ x, x ∈ pl' → x ∈ pl ∨ ∃ y, y ∈ todo ∧ reachable d y x.
Proof.
  intros IHf todo. induction todo as [|y todo IHt]; intros pl pv pl' pv'.
  - simpl. intros [= <- <-] x Hx. by left.
  - rewrite for_each_cons_run by apply pure_dfs_body. rewrite dfs_body_run.
    destruct (depth_first_traversal fuel y (Some pv) d).1 as [[sub pv1]|e|] eqn:Hy;
      simpl; [|done|done].
    intros Hrest x Hx.
    destruct (IHt _ _ _ _ Hrest x Hx) as [[Hin|Hin]%elem_of_app|(z & Hz & Hzx)].
    + by left.
    + right. exists y. split; [left|]. by apply (IHf y pv sub pv1).
    + right. exists z. split; [by right|done].
Qed.

(** Every node of a returned path can be reached from [start]. *)
Lemma dfs_sound d fuel :
  ∀ start prev path prev',
    (depth_first_traversal fuel start (Some prev) d).1 = Return (path, prev') →
    ∀ x, x ∈ path → reachable d start x.
Proof.
  induction fuel as [|fuel IH]; intros start prev path prev'; [done|].
  rewrite dfs_unfold. simpl.
  destruct (contains start d); [|done].
  destruct (mem start prev); simpl.
  { intros [= <- <-] x Hx. inversion Hx. }
  destruct (getitem start d) as [succ|] eqn:Hg; [|done].
  intros Hloop x Hx.
  destruct (dfs_loop_sound fuel d IH succ _ _ _ _ Hloop x Hx)
    as [->%list_elem_of_singleton|(y & Hy & Hyx)].
  - apply rtc_refl.
  - apply rtc_l with y; [|done]. by apply (edge_intro d start y succ).
Qed.

(** X13: for every graph and start node, with a recursion budget above
    the number of entries, [depth_first_traversal(start)] terminates and
    leaves the graph alone.  When it returns, its output starts with
    [start], holds no node twice, and holds exactly the nodes that can be
    reached from [start] along edges.  Otherwise it raises [KeyError],
    which a present [start] in a graph where every listed successor has
    an entry never does. *)
Theorem dfs_returns_reachable_nodes d start fuel :
  length d < fuel →
  ∃ r, depth_first_traversal fuel start None d = (r, d) ∧
    match r with
    | Return (path, prev) =>
        prev = path ∧ head path = Some start ∧ NoDup path ∧
        ∀ x, x ∈ path ↔ reachable d start x
    | Raise e =>
        e = KeyError ∧ (contains start d = true → ¬ ref_integrity d)
    | OutOfFuel => False
    end.
Proof.
  intros Hfuel. destruct (dfs_top d fuel start Hfuel) as (r & Hrun & Hpost).
  exists r. split; [done|].
  destruct r as [[path prev]|e|]; simpl in Hpost; [|done|done].
  destruct Hpost as (-> & Hnd & _ & _ & _ & Hhd & Hcl). simpl in *.
  specialize (Hhd (not_elem_of_nil _)).
  split_and!; try done. intros x. split.
  - apply (dfs_sound d fuel start [] path path).
    by rewrite <-dfs_prev_None, Hrun.
  - revert x. apply (reachable_closed d start (λ x, x ∈ path)).
    + destruct path; simpl in *; simplify_eq. left.
    + intros y z Hy Hz. unfold successors in Hz.
      destruct (getitem y d) as [succ|] eqn:Hg; [|inversion Hz].
      by apply (Hcl y succ z).
Qed.

(** The loops of one layer: every node of the layer must have an entry. *)
Lemma bfs_layer_cases path_list layer d :
  ∀ acc,
    (for_each layer acc (bfs_outer path_list) d).1 =
    if forallb (λ x, contains x d) layer
    then Return (acc ++ bfs_children d path_list layer)
    else Raise KeyError.
Proof.
  unfold bfs_children.
  induction layer as [|x layer IH]; intros acc.
  - simpl. by rewrite app_nil_r.
  - rewrite for_each_cons_run by apply pure_bfs_outer.
    rewrite bfs_outer_run. cbn [forallb]. unfold contains at 1, successors.
    rewrite bind_cons.
    destruct (getitem x d) as [succ|]; [|done]. simpl.
    rewrite IH. destruct (forallb _ layer); [|done].
    by rewrite <-app_assoc.
Qed.

Lemma elem_of_bfs_children d path_list layer y :
  y ∈ bfs_children d path_list layer ↔
  (y ∉ path_list) ∧ ∃ x, x ∈ layer ∧ y ∈ successors d x.
Proof.
  unfold bfs_children. rewrite list_elem_of_bind. split.
  - intros (x & [Hy Hs]%list_elem_of_filter & Hx). eauto.
  - intros (Hy & x & Hx & Hs). exists x. split; [|done].
    by apply list_elem_of_filter.
Qed.

Lemma unvisited_lt_app d prev layer k :
  k ∈ layer → contains k d = true → k ∉ prev →
  unvisited d (prev ++ layer) < unvisited d prev.
Proof.
  intros Hk Hc%contains_keys Hprev. unfold unvisited.
  apply length_filter_lt with k; try done.
  - intros x Hx Hin. apply Hx, elem_of_app. by left.
  - intros Hn. apply Hn, elem_of_app. by right.
Qed.

(** With more fuel than there are unvisited keys, the call on a layer
    terminates and meets [bfs_post]; [pl0] holds the nodes of the earlier
    layers, whose successors have all been collected. *)
Lemma bfs_correct d start fuel :
  ∀ layer pl0,
    unvisited d pl0 < fuel →
    layer ≠ [] → (∀ x, x ∈ layer → x ∉ pl0) →
    head (pl0 ++ layer) = Some start →
    (∀ x, x ∈ pl0 →
       contains x d = true ∧ ∀ y, y ∈ successors d x → y ∈ pl0 ++ layer) →
    (∀ x, x ∈ pl0 ++ layer → reachable d start x) →
    bfs_post d start layer
      (breadth_first_traversal fuel (inr layer) (Some (pl0 ++ layer)) d).1.
Proof.
  induction fuel as [|fuel IH]; intros layer pl0 Hm Hne Hdisj Hhd Hcl Hreach;
    [lia|].
  rewrite bfs_unfold. cbv zeta. cbn [default].
  rewrite bfs_layer_cases. cbn [app].
  destruct (forallb (λ x, contains x d) layer) eqn:Hall.
  2:{ simpl. split; [done|]. intros Hpres. exfalso.
      assert (forallb (λ x, contains x d) layer = true); [|congruence].
      apply forallb_forall. intros x Hx. by apply Hpres, list_elem_of_In. }
  assert (∀ x, x ∈ layer → contains x d = true) as Hpres.
  { intros x Hx. rewrite forallb_forall in Hall. by apply Hall, list_elem_of_In. }
  cbv beta iota. unfold id.
  set (pl := pl0 ++ layer) in *.
  set (children := bfs_children d pl layer).
  assert (∀ x, x ∈ pl →
            contains x d = true ∧ ∀ y, y ∈ successors d x → y ∈ pl ++ children)
    as Hcl'.
  { intros x [Hx|Hx]%elem_of_app.
    - destruct (Hcl x Hx) as [Hc Hs]. split; [done|].
      intros y Hy. apply elem_of_app. left. by apply Hs.
    - split; [by apply Hpres|]. intros y Hy. apply elem_of_app.
      destruct (decide (y ∈ pl)); [by left|]. right.
      apply elem_of_bfs_children. eauto. }
  destruct (length children =? 0) eqn:Hlen.
  - apply Nat.eqb_eq, nil_length_inv in Hlen. rewrite Hlen in *.
    simpl. rewrite app_nil_r in *. done.
  - apply Nat.eqb_neq in Hlen.
    assert (bfs_post d start children
              (breadth_first_traversal fuel (inr children)
                 (Some (pl ++ children)) d).1) as Hpost.
    { apply IH.
      - destruct layer as [|k layer]; [done|].
        assert (k ∈ k :: layer) as Hk by left.
        pose proof (unvisited_lt_app d pl0 (k :: layer) k Hk
                      (Hpres k Hk) (Hdisj k Hk)) as Hlt.
        unfold pl. lia.
      - intros Hnil. by rewrite Hnil in Hlen.
      - by intros x [Hx _]%elem_of_bfs_children.
      - unfold pl in *. destruct (pl0 ++ layer); [done|]. done.
      - done.
      - intros x [Hx|Hx]%elem_of_app; [by apply Hreach|].
        apply elem_of_bfs_children in Hx as (_ & k & Hk & Hx).
        apply rtc_r with k.
        + apply Hreach, elem_of_app. by right.
        + by apply edge_successors. }
    destruct (breadth_first_traversal fuel (inr children)
                (Some (pl ++ children)) d).1 as [out|e|]; [done| |done].
    destruct Hpost as [-> Href]. split; [done|]. intros _ Hri.
    apply Href; [|done].
    intros x (_ & k & Hk & Hx)%elem_of_bfs_children.
    unfold successors in Hx. destruct (getitem k d) as [succ|] eqn:Hg;
      [|inversion Hx].
    by apply (Hri k succ x).
Qed.

Lemma bfs_single fuel (start : node) d :
  breadth_first_traversal fuel (inl start) None d =
  breadth_first_traversal fuel (inr [start]) (Some [start]) d.
Proof. destruct fuel; [done|]. by rewrite !bfs_unfold. Qed.

(** X14: for every graph and start node, with a recursion budget above
    the number of entries, [breadth_first_traversal(start)] terminates,
    cycles included, and leaves the graph alone.  When it returns, its
    output starts with [start] and holds exactly the nodes that can be
    reached from [start] along edges.  Otherwise it raises [KeyError],
    which a present [start] in a graph where every listed successor has
    an entry never does. *)
Theorem bfs_returns_reachable_nodes d start fuel :
  length d < fuel →
  ∃ r, breadth_first_traversal fuel (inl start) None d = (r, d) ∧
    match r with
    | Return out => head out = Some start ∧ ∀ x, x ∈ out ↔ reachable d start x
    | Raise e =>
        e = KeyError ∧ (contains start d = true → ¬ ref_integrity d)
    | OutOfFuel => False
    end.
Proof.
  intros Hfuel.
  exists (breadth_first_traversal fuel (inl start) None d).1. split.
  { apply pure_run, pure_breadth_first_traversal. }
  rewrite bfs_single.
  assert (bfs_post d start [start]
            (breadth_first_traversal fuel (inr [start]) (Some ([] ++ [start])) d).1)
    as Hpost.
  { apply bfs_correct.
    - pose proof (unvisited_bound d []). lia.
    - done.
    - intros x _. apply not_elem_of_nil.
    - done.
    - intros x Hx. inversion Hx.
    - intros x ->%list_elem_of_singleton. apply rtc_refl. }
  simpl in Hpost.
  destruct (breadth_first_traversal fuel (inr [start]) (Some [start]) d).1
    as [out|e|]; simpl in *; [| |done].
  - destruct Hpost as (Hhd & Hcl & Hreach). split; [done|].
    intros x. split; [apply Hreach|]. revert x.
    apply (reachable_closed d start (λ x, x ∈ out)).
    + destruct out; simpl in *; simplify_eq. left.
    + intros y z Hy Hz. by apply (Hcl y).
  - destruct Hpost as [-> Href]. split; [done|]. intros Hc. apply Href.
    by intros x ->%list_elem_of_singleton.
Qed.

(** X15: a traversal that starts at a node without entry raises
    [KeyError] and leaves the graph alone, depth-first through its guard
    and breadth-first through the lookup of the first layer. *)
Theorem traversal_from_absent_start_raises d start fuel :
  contains start d = false →
  depth_first_traversal (S fuel) start None d = (Raise KeyError, d) ∧
  breadth_first_traversal (S fuel) (inl start) None d = (Raise KeyError, d).
Proof.
  intros Hc. split.
  - by rewrite dfs_unfold, Hc.
  - rewrite bfs_unfold. cbv zeta. cbn [default app].
    rewrite bfs_layer_raises with (n := start); [done|left|].
    by apply contains_false.
Qed.

(** ** The successors after [add_edge] *)

Lemma has_edge_successors d a b : has_edge d a b = mem b (successors d a).
Proof.
  unfold has_edge, successors. destruct (getitem a d); [done|]. simpl.
  symmetry. apply mem_false, not_elem_of_nil.
Qed.

Lemma add_edge_outcome d a b :
  (add_edge a b d).1 = if mem b (successors d a) then Raise ValueError else Return tt.
Proof.
  unfold successors. rewrite add_edge_run. cbv zeta.
  rewrite getitem_add_edge_source. by destruct (mem b _).
Qed.

Lemma successors_add_edge d a b c :
  b ∉ successors d a →
  successors (add_edge a b d).2 c =
  if decide (c = a) then successors d a ++ [b] else successors d c.
Proof.
  unfold successors. intros Hb. rewrite add_edge_run. cbv zeta.
  rewrite getitem_add_edge_source. apply mem_false in Hb. rewrite Hb. simpl.
  rewrite getitem_setitem. case_decide; [done|].
  rewrite !getitem_setdefault.
  repeat case_decide; subst; try done; by destruct (getitem _ d).
Qed.

End Facts.

(** * The examples, evaluated *)

Import Examples.

Local Open Scope Z_scope.

(** C5: on the graph built by [add_edge(1, 2)], [add_edge(1, 3)],
    [add_edge(2, 4)] from the empty graph, [depth_first_traversal(1)]
    returns [[1; 2; 4; 3]] and [breadth_first_traversal(1)] returns
    [[1; 2; 3; 4]], for every recursion budget of at least three. *)
Theorem branching_traversals (fuel : nat) :
  let g := run 0 [AddEdge 1 2; AddEdge 1 3; AddEdge 2 4] init in
  call (3 + fuel) (DepthFirstTraversal 1) g = (Return (VNodes [1; 2; 4; 3]), g) ∧
  call (3 + fuel) (BreadthFirstTraversal 1) g = (Return (VNodes [1; 2; 3; 4]), g).
Proof. split; reflexivity. Qed.

(** C1 fails on [add_edge]: in the graph left by [add_edge(1, 2)] and
    [del_node(2)], node 1 still lists 2; there [add_edge(1, 2)] raises
    [ValueError] after its [setdefault] has created node 2 again. *)
Theorem add_edge_failure_changes_graph :
  run 0 [AddEdge 1 2; DelNode 2] init = [(1, [2])] ∧
  add_edge 1 2 [(1, [2])] = (Raise ValueError, [(1, [2]); (2, [])]).
Proof. split; reflexivity. Qed.

(** C2 fails on the graph with edges 1 → 2, 1 → 3, 2 → 4, 3 → 4: the
    layer [[2; 3]] finds 4 twice, and [breadth_first_traversal(1)]
    returns [[1; 2; 3; 4; 4]]. *)
Theorem bfs_diamond_repeats_node (fuel : nat) :
  let g := run 0 [AddEdge 1 2; AddEdge 1 3; AddEdge 2 4; AddEdge 3 4] init in
  breadth_first_traversal (3 + fuel) (inl 1) None g
  = (Return [1; 2; 3; 4; 4], g) ∧
  ¬ NoDup [1; 2; 3; 4; 4].
Proof.
  split; [reflexivity|]. intros Hnd.
  apply NoDup_cons in Hnd as [_ Hnd]. apply NoDup_cons in Hnd as [_ Hnd].
  apply NoDup_cons in Hnd as [_ Hnd]. apply NoDup_cons in Hnd as [Hnd _].
  apply Hnd. left.
Qed.

(** C3 as stated does not hold: after [add_edge(1, 2)] and [del_node(2)]
    node 1 lists the successor 2, which has no entry. *)
Lemma ref_integrity_broken_by_del_node :
  ¬ (∀ ms : list (method Z),
       forallb is_mutation ms = true → ref_integrity (run 0 ms init)).
Proof.
  intros Hall. specialize (Hall [AddEdge 1 2; DelNode 2] eq_refl).
  specialize (Hall 1 [2] 2 eq_refl). discriminate Hall. left.
Qed.

(** C4 as stated does not hold: node 1 of the graph [[(1, [2])]] is
    present and lists the absent node 2, and neither traversal from 1
    returns, whatever the recursion budget. *)
Lemma traversals_fail_on_dangling :
  getitem 1 dangling = Some [2] ∧ 2 ∈ [2] ∧ getitem 2 dangling = None ∧
  ∀ fuel,
    is_return (depth_first_traversal fuel 1 None dangling).1 = false ∧
    is_return (breadth_first_traversal fuel (inl 1) None dangling).1 = false.
Proof.
  split; [reflexivity|]. split; [left|]. split; [reflexivity|].
  intros [|[|fuel]]; split; reflexivity.
Qed.



(** ** The theorems at concrete inputs *)

Lemma ref_integrity_without_dangling_delete_witness :
  no_dangling_delete 0 [AddEdge 1 2; DelEdge 1 2; DelNode 2; AddNode 3] init
  = true ∧
  ref_integrity (run 0 [AddEdge 1 2; DelEdge 1 2; DelNode 2; AddNode 3] init).
Proof.
  split; [reflexivity|].
  apply (ref_integrity_without_dangling_delete 0
           [AddEdge 1 2; DelEdge 1 2; DelNode 2; AddNode 3]).
  reflexivity.
Defined.

Lemma traversals_raise_on_dangling_witness :
  getitem 1 dangling = Some [2] ∧ 2 ∈ [2] ∧ getitem 2 dangling = None ∧
  (length dangling < 2)%nat ∧
  depth_first_traversal 2 1 None dangling = (Raise KeyError, dangling) ∧
  breadth_first_traversal 2 (inl 1) None dangling = (Raise KeyError, dangling).
Proof.
  assert (2 ∈ [2]) as Hin by left.
  assert (length dangling < 2)%nat as Hlen by (simpl; lia).
  split; [reflexivity|]. split; [exact Hin|]. split; [reflexivity|].
  split; [exact Hlen|].
  exact (traversals_raise_on_dangling dangling 1 2 [2] 2%nat eq_refl Hin eq_refl Hlen).
Defined.


Lemma add_edge_creates_endpoints_witness :
  (contains 5 single = false ∨ contains 7 single = false) ∧
  (7 ∉ default [] (getitem 5 single)) ∧
  ∃ g', add_edge 5 7 single = (Return tt, g') ∧
        getitem 5 g' = Some [7] ∧ getitem 7 g' = Some [].
Proof.
  assert (contains 5 single = false ∨ contains 7 single = false) as Habs
    by (right; reflexivity).
  assert (7 ∉ default [] (getitem 5 single)) as Hnew
    by (change (7 ∉ ([] : list Z)); apply not_elem_of_nil).
  split; [exact Habs|]. split; [exact Hnew|].
  destruct (add_edge_creates_endpoints single 5 7 Habs Hnew)
    as (g' & Hrun & _ & Hb & Ha & _).
  exists g'. split; [exact Hrun|]. split.
  - apply (Ha []). reflexivity.
  - apply Hb; [reflexivity | discriminate].
Defined.

Lemma adjacent_spec_witness :
  adjacent 1 9 branching = (Raise KeyError, branching) ∧
  adjacent 1 3 branching = (Return true, branching).
Proof.
  split.
  - apply (proj1 (adjacent_spec branching 1 9)). right. reflexivity.
  - rewrite (proj2 (adjacent_spec branching 1 3) [2; 3] []) by reflexivity.
    reflexivity.
Defined.

Lemma queries_leave_graph_unchanged_witness :
  is_mutation (DepthFirstTraversal 1 : method Z) = false ∧
  ∃ r, call 4 (DepthFirstTraversal 1) triangle = (r, triangle).
Proof.
  split; [reflexivity|].
  exact (queries_leave_graph_unchanged 4 (DepthFirstTraversal 1) triangle eq_refl).
Defined.


(** ** The script *)

Lemma elem_of_range (n : nat) (i : Z) : i ∈ range n ↔ 0 ≤ i < Z.of_nat n.
Proof.
  unfold range. rewrite list_elem_of_fmap. split.
  - intros (k & -> & Hk%elem_of_seq). lia.
  - intros Hi. exists (Z.to_nat i). split; [lia|]. apply elem_of_seq. lia.
Qed.

Lemma NoDup_range (n : nat) : NoDup (range n).
Proof. unfold range. apply NoDup_fmap_2; [apply _|apply NoDup_seq]. Qed.

(** The loop of [fill_graph] over any list of distinct integers. *)
Lemma fill_loop_returns (indices : list Z) :
  NoDup indices → ∀ d : dict Z,
    (∀ i, i ∈ indices → has_edge d i (i + 1) = false) →
    ∃ d', for_each indices tt (λ i _, add_edge i (i + 1)) d = (Return tt, d') ∧
      ∀ a, successors d' a =
           if decide (a ∈ indices) then successors d a ++ [a + 1]
           else successors d a.
Proof.
  induction 1 as [|j indices Hj Hnd IH]; intros d Hfree.
  - exists d. split; [done|]. intros a. rewrite decide_False; [done|].
    apply not_elem_of_nil.
  - assert (j + 1 ∉ successors d j) as Hnew.
    { apply mem_false. rewrite <-has_edge_successors. apply Hfree. left. }
    pose proof (add_edge_outcome d j (j + 1)) as Hout.
    apply mem_false in Hnew. rewrite Hnew in Hout. apply mem_false in Hnew.
    pose proof (successors_add_edge d j (j + 1)) as Hsucc.
    destruct (add_edge j (j + 1) d) as [r d1] eqn:Hrun. simpl in Hout, Hsucc.
    subst r. destruct (IH d1) as (d' & Hloop & Hd').
    { intros i Hi. rewrite has_edge_successors, Hsucc by done.
      rewrite decide_False by (intros ->; done).
      rewrite <-has_edge_successors. apply Hfree. by right. }
    exists d'. split.
    + simpl. unfold mbind, M_bind. by rewrite Hrun.
    + intros a. rewrite Hd', Hsucc by done.
      destruct (decide (a = j)) as [->|Ha].
      * rewrite decide_False by done. rewrite decide_True; [done|left].
      * destruct (decide (a ∈ indices)) as [Hin|Hin].
        -- rewrite decide_True; [done|by right].
        -- rewrite decide_False; [done|]. by intros [?|?]%elem_of_cons.
Qed.

Lemma fill_loop_raises (indices : list Z) :
  ∀ (d : dict Z) i, i ∈ indices → has_edge d i (i + 1) = true →
    ∃ d', for_each indices tt (λ i _, add_edge i (i + 1)) d
          = (Raise ValueError, d').
Proof.
  induction indices as [|j indices IH]; intros d i Hi Hedge; [inversion Hi|].
  pose proof (add_edge_outcome d j (j + 1)) as Hout.
  pose proof (successors_add_edge d j (j + 1)) as Hsucc.
  simpl. unfold mbind, M_bind.
  destruct (add_edge j (j + 1) d) as [r d1] eqn:Hrun. simpl in Hout, Hsucc.
  destruct (mem (j + 1) (successors d j)) eqn:Hj; subst r; [by exists d1|].
  apply mem_false in Hj. apply (IH d1 i).
  - apply elem_of_cons in Hi as [->|Hi]; [|done].
    rewrite has_edge_successors in Hedge. apply mem_true in Hedge. done.
  - rewrite has_edge_successors, Hsucc by done.
    rewrite decide_False; [by rewrite <-has_edge_successors|].
    intros ->. rewrite has_edge_successors in Hedge.
    apply mem_true in Hedge. done.
Qed.

(** X16: [fill_graph(graph)] returns exactly when the graph has none of
    the edges [i → i + 1] for [i] in [range(100)]; it then appends
    [i + 1] to the successors of every such [i] and changes no other
    successor list.  When one of these edges exists it raises
    [ValueError].  On a new graph it builds the chain 0 → 1 → ... → 100,
    on which both traversals from 1 return 1, 2, ..., 100, so that
    [fill_and_depth_trav] and [fill_and_breadth_trav] run to completion
    for every recursion budget of at least 100. *)
Theorem fill_graph_adds_chain_edges (fuel : nat) :
  (∀ d : dict Z,
     (∀ i, 0 ≤ i < 100 → has_edge d i (i + 1) = false) →
     ∃ d', fill_graph d = (Return tt, d') ∧
       ∀ a, successors d' a =
            if decide (0 ≤ a < 100) then successors d a ++ [a + 1]
            else successors d a) ∧
  (∀ (d : dict Z) i, 0 ≤ i < 100 → has_edge d i (i + 1) = true →
     ∃ d', fill_graph d = (Raise ValueError, d')) ∧
  fill_graph init = (Return tt, chain) ∧
  depth_first_traversal (100 + fuel) 1 None chain
  = (Return (Z.of_nat <$> seq 1 100, Z.of_nat <$> seq 1 100), chain) ∧
  breadth_first_traversal (100 + fuel) (inl 1) None chain
  = (Return (Z.of_nat <$> seq 1 100), chain) ∧
  fill_and_depth_trav (100 + fuel) = Return tt ∧
  fill_and_breadth_trav (100 + fuel) = Return tt.
Proof.
  split_and!; try (vm_compute; reflexivity).
  - intros d Hfree.
    destruct (fill_loop_returns (range 100) (NoDup_range 100) d)
      as (d' & Hrun & Hd').
    { intros i Hi%elem_of_range. apply Hfree. lia. }
    exists d'. split; [exact Hrun|]. intros a. rewrite Hd'.
    destruct (decide (a ∈ range 100)) as [Hin|Hin].
    + rewrite decide_True; [done|]. apply elem_of_range in Hin. lia.
    + rewrite decide_False; [done|]. intros Ha. apply Hin, elem_of_range. lia.
  - intros d i Hi Hedge. apply (fill_loop_raises (range 100) d i); [|done].
    apply elem_of_range. lia.
Qed.

(** ** The further theorems at concrete inputs *)

Lemma add_node_appends_isolated_node_witness :
  contains 9 branching = false ∧
  ∃ d', add_node 9 branching = (Return tt, d') ∧
        has_node 9 d' = (Return true, d') ∧
        add_node 9 d' = (Raise ValueError, d').
Proof.
  assert (contains 9 branching = false) as Hn by reflexivity.
  split; [exact Hn|].
  destruct (add_node_appends_isolated_node branching 9 Hn)
    as (d' & Hrun & _ & Hhas & _ & _ & Hagain).
  exists d'. split; [exact Hrun|]. split; [exact Hhas | exact Hagain].
Defined.

Lemma del_node_removes_entry_only_witness :
  contains 2 branching = true ∧
  ∃ d', del_node 2 branching = (Return tt, d') ∧
        has_node 2 d' = (Return false, d') ∧
        getitem 1 d' = Some [2; 3].
Proof.
  assert (contains 2 branching = true) as Hn by reflexivity.
  split; [exact Hn|].
  destruct (del_node_removes_entry_only branching 2 Hn)
    as (d' & Hrun & Hhas & _ & Hother & _).
  exists d'. split; [exact Hrun|]. split; [exact Hhas|].
  rewrite Hother by discriminate. reflexivity.
Defined.

Lemma add_node_del_node_round_trip_witness :
  contains 9 branching = false ∧
  (add_node 9;; del_node 9) branching = (Return tt, branching).
Proof.
  assert (contains 9 branching = false) as Hn by reflexivity.
  split; [exact Hn|]. exact (add_node_del_node_round_trip branching 9 Hn).
Defined.

Lemma del_edge_removes_first_occurrence_witness :
  getitem 1 branching = Some [2; 3] ∧ 3 ∈ [2; 3] ∧
  ∃ l1 l2 d', [2; 3] = l1 ++ 3 :: l2 ∧
    del_edge 1 3 branching = (Return tt, d') ∧
    getitem 1 d' = Some (l1 ++ l2).
Proof.
  assert (getitem 1 branching = Some [2; 3]) as Ha by reflexivity.
  assert (3 ∈ [2; 3]) as Hb by (right; left).
  split; [exact Ha|]. split; [exact Hb|].
  destruct (del_edge_removes_first_occurrence branching 1 3 [2; 3] Ha Hb)
    as (l1 & l2 & d' & Hsplit & _ & Hrun & Hget & _).
  exists l1, l2, d'. split; [exact Hsplit|]. split; [exact Hrun | exact Hget].
Defined.

Lemma del_edge_missing_edge_witness :
  (4 ∉ successors branching 1) ∧
  del_edge 1 4 branching = (Raise ValueError, branching).
Proof.
  assert (4 ∉ successors branching 1) as Hb
    by (apply (bool_decide_eq_false_1 (4 ∈ successors branching 1));
        reflexivity).
  split; [exact Hb|]. exact (del_edge_missing_edge branching 1 4 Hb).
Defined.

Lemma add_edge_del_edge_round_trip_witness :
  (4 ∉ successors branching 3) ∧
  (add_edge 3 4;; del_edge 3 4) branching = (Return tt, branching).
Proof.
  assert (4 ∉ successors branching 3) as Hb
    by (apply (bool_decide_eq_false_1 (4 ∈ successors branching 3));
        reflexivity).
  split; [exact Hb|].
  apply (proj2 (add_edge_del_edge_round_trip branching 3 4 Hb)); reflexivity.
Defined.

Lemma add_edge_twice_raises_witness :
  (4 ∉ successors branching 3) ∧
  ∃ d', add_edge 3 4 branching = (Return tt, d') ∧
        add_edge 3 4 d' = (Raise ValueError, d').
Proof.
  assert (4 ∉ successors branching 3) as Hb
    by (apply (bool_decide_eq_false_1 (4 ∈ successors branching 3));
        reflexivity).
  split; [exact Hb|].
  destruct (add_edge_twice_raises branching 3 4 Hb) as (d' & Hrun & _ & _ & Hagain).
  exists d'. split; [exact Hrun | exact Hagain].
Defined.

Lemma neighbors_agrees_with_adjacent_witness :
  neighbors 9 branching = (Raise ValueError, branching) ∧
  ∃ succ, neighbors 1 branching = (Return succ, branching) ∧
          adjacent 1 3 branching = (Return (bool_decide (3 ∈ succ)), branching).
Proof.
  split.
  - apply (proj1 (neighbors_agrees_with_adjacent branching 9)). reflexivity.
  - assert (contains 1 branching = true) as Hc by reflexivity.
    destruct (proj2 (neighbors_agrees_with_adjacent branching 1) Hc)
      as (succ & Hn & Hadj).
    exists succ. split; [exact Hn|]. apply Hadj. reflexivity.
Defined.

Lemma failing_call_leaves_graph_witness :
  ref_integrity branching ∧
  is_return (call 0 (AddEdge 1 2) branching).1 = false ∧
  (call 0 (AddEdge 1 2) branching).2 = branching.
Proof.
  assert (ref_integrity branching) as Hri
    by (apply ref_integrity_b_sound; reflexivity).
  assert (is_return (call 0 (AddEdge 1 2) branching).1 = false) as Hfail
    by reflexivity.
  split; [exact Hri|]. split; [exact Hfail|].
  exact (failing_call_leaves_graph 0 (AddEdge 1 2) branching (or_introl Hri) Hfail).
Defined.

Lemma dfs_returns_reachable_nodes_witness :
  (length triangle < 4)%nat ∧
  ∃ r, depth_first_traversal 4 1 None triangle = (r, triangle) ∧
       terminated r = true.
Proof.
  assert (length triangle < 4)%nat as Hlen by (simpl; lia).
  split; [exact Hlen|].
  destruct (dfs_returns_reachable_nodes triangle 1 4%nat Hlen) as (r & Hrun & Hr).
  exists r. split; [exact Hrun|]. destruct r as [[? ?]| |]; [reflexivity..|].
  destruct Hr.
Defined.

Lemma bfs_returns_reachable_nodes_witness :
  (length triangle < 4)%nat ∧
  ∃ r, breadth_first_traversal 4 (inl 1) None triangle = (r, triangle) ∧
       terminated r = true.
Proof.
  assert (length triangle < 4)%nat as Hlen by (simpl; lia).
  split; [exact Hlen|].
  destruct (bfs_returns_reachable_nodes triangle 1 4%nat Hlen) as (r & Hrun & Hr).
  exists r. split; [exact Hrun|]. destruct r as [?| |]; [reflexivity..|].
  destruct Hr.
Defined.

Lemma traversal_from_absent_start_raises_witness :
  contains 9 branching = false ∧
  depth_first_traversal 1 9 None branching = (Raise KeyError, branching) ∧
  breadth_first_traversal 1 (inl 9) None branching = (Raise KeyError, branching).
Proof.
  assert (contains 9 branching = false) as Hn by reflexivity.
  split; [exact Hn|].
  exact (traversal_from_absent_start_raises branching 9 0%nat Hn).
Defined.

(** * The trie and the binary search tree *)

Section PyDictFacts.

Context {K V : Type} `{EqDecision K}.

Implicit Types (k : K) (v : V) (d : list (K * V)).

Lemma pydict_get_set k k' v d :
  PyDict.get k' (PyDict.set k v d) =
  if decide (k' = k) then Some v else PyDict.get k' d.
Proof.
  induction d as [|[k0 v0] d IH]; simpl.
  - repeat case_decide; congruence.
  - repeat (case_decide; simpl); subst; try congruence.
Qed.

Lemma pydict_get_setdefault k k' v d :
  PyDict.get k' (PyDict.setdefault k v d) =
  if decide (k' = k) then Some (default v (PyDict.get k d)) else PyDict.get k' d.
Proof.
  unfold PyDict.setdefault, PyDict.has.
  destruct (PyDict.get k d) as [v0|] eqn:Hk.
  - case_decide; by subst.
  - rewrite pydict_get_set. by case_decide.
Qed.

Lemma pydict_has_set k k' v d :
  PyDict.has k' (PyDict.set k v d) = bool_decide (k' = k) || PyDict.has k' d.
Proof.
  unfold PyDict.has. rewrite pydict_get_set.
  case_bool_decide; case_decide; done.
Qed.

Lemma pydict_has_setdefault k k' v d :
  PyDict.has k' (PyDict.setdefault k v d)
  = bool_decide (k' = k) || PyDict.has k' d.
Proof.
  unfold PyDict.has. rewrite pydict_get_setdefault.
  case_bool_decide; case_decide; subst; done.
Qed.

Lemma pydict_has_keys k d : PyDict.has k d = true ↔ k ∈ d.*1.
Proof.
  unfold PyDict.has. induction d as [|[k' v'] d IH]; simpl.
  - split; [done|]. intros Hk. inversion Hk.
  - case_decide as Hkk; subst.
    + split; [intros _; left | done].
    + rewrite IH. split; [by right|]. intros Hk. inversion Hk; by subst.
Qed.

Lemma pydict_keys_set k v d :
  (PyDict.set k v d).*1 = if PyDict.has k d then d.*1 else d.*1 ++ [k].
Proof.
  unfold PyDict.has. induction d as [|[k' v'] d IH]; [done|].
  cbn [PyDict.set PyDict.get]. case_decide as Hk; [by subst|].
  rewrite !fmap_cons, IH. by destruct (PyDict.get k d).
Qed.

Lemma pydict_elem_of_set k v d kv :
  kv ∈ PyDict.set k v d → kv = (k, v) ∨ kv ∈ d.
Proof.
  induction d as [|[k' v'] d IH]; simpl.
  - intros ->%list_elem_of_singleton. by left.
  - case_decide.
    + intros [->|Hin]%elem_of_cons; [by left|]. right. by right.
    + intros [->|Hin]%elem_of_cons; [right; left|].
      destruct (IH Hin) as [->|?]; [by left|]. right. by right.
Qed.

End PyDictFacts.

Section TrieFacts.

Context {letter : Type} `{EqDecision letter} (dollar : letter).

Implicit Types (s v w : list letter) (t : TrieTree.trie letter)
  (self : @TrieTree.state letter).

Lemma walk_empty v : TrieTree.walk dollar v (TrieTree.Dict []) = false.
Proof. by destruct v. Qed.

Lemma enter_next l s t :
  TrieTree.enter dollar (l :: s) t =
  TrieTree.Dict
    (PyDict.set l
       (TrieTree.enter dollar s
          (default (TrieTree.Dict []) (PyDict.get l (TrieTree.entries t))))
       (PyDict.setdefault l (TrieTree.Dict []) (TrieTree.entries t))).
Proof.
  cbn [TrieTree.enter]. rewrite pydict_get_setdefault.
  by rewrite decide_True.
Qed.

Lemma walk_enter_same s t :
  TrieTree.walk dollar s (TrieTree.enter dollar s t) = true.
Proof.
  revert t. induction s as [|l s IH]; intros t.
  - cbn. rewrite pydict_has_set. by rewrite bool_decide_eq_true_2.
  - rewrite enter_next. cbn [TrieTree.walk TrieTree.entries].
    rewrite pydict_get_set, decide_True by done. apply IH.
Qed.

Lemma walk_enter s t :
  dollar ∉ s → TrieTree.walk dollar s t = false →
  ∀ v, TrieTree.walk dollar v (TrieTree.enter dollar s t) =
       if decide (v = s) then true else TrieTree.walk dollar v t.
Proof.
  revert t. induction s as [|l s IH]; intros t Hs Ht v.
  - cbn in Ht. cbn [TrieTree.enter]. destruct v as [|c v].
    + cbn. rewrite pydict_has_set. by rewrite bool_decide_eq_true_2.
    + rewrite decide_False by done. cbn [TrieTree.walk TrieTree.entries].
      rewrite pydict_get_set. case_decide as Hc; [|done].
      subst. rewrite walk_empty. unfold PyDict.has in Ht.
      by destruct (PyDict.get dollar (TrieTree.entries t)).
  - apply not_elem_of_cons in Hs as [Hl Hs]. rewrite enter_next.
    set (next := default (TrieTree.Dict []) (PyDict.get l (TrieTree.entries t))).
    assert (TrieTree.walk dollar s next = false) as Hnext.
    { unfold next. cbn [TrieTree.walk] in Ht.
      destruct (PyDict.get l (TrieTree.entries t)); [done|]. apply walk_empty. }
    destruct v as [|c v].
    + rewrite decide_False by done. cbn.
      rewrite pydict_has_set, pydict_has_setdefault.
      by rewrite !bool_decide_eq_false_2 by done.
    + cbn [TrieTree.walk TrieTree.entries]. rewrite pydict_get_set.
      case_decide as Hc.
      * subst c. rewrite (IH next Hs Hnext v).
        destruct (decide (v = s)) as [->|Hv].
        -- by rewrite decide_True.
        -- rewrite decide_False by congruence. unfold next.
           destruct (PyDict.get l (TrieTree.entries t)); [done|].
           apply walk_empty.
      * rewrite decide_False by congruence.
        rewrite pydict_get_setdefault. by rewrite decide_False.
Qed.

Lemma walk_marker_suffix w t :
  TrieTree.walk dollar (w ++ [dollar]) t = true →
  TrieTree.walk dollar w t = true.
Proof.
  revert t. induction w as [|l w IH]; intros t; cbn.
  - unfold PyDict.has. by destruct (PyDict.get dollar (TrieTree.entries t)).
  - destruct (PyDict.get l (TrieTree.entries t)); [apply IH|done].
Qed.

(** X17: [insert] of a string returns without raising, and [contains]
    finds the string afterwards; when [contains] found it before, the
    trie and its size are exactly as they were, and otherwise the size
    has grown by one. *)
Theorem trie_insert_then_contains s self :
  ∃ self', TrieTree.insert dollar (TrieTree.Str s) self = (inr tt, self') ∧
    TrieTree.contains dollar (TrieTree.Str s) self' = true ∧
    (TrieTree.contains dollar (TrieTree.Str s) self = true → self' = self) ∧
    (TrieTree.contains dollar (TrieTree.Str s) self = false →
     TrieTree.size self' = (TrieTree.size self + 1)%nat).
Proof.
  unfold TrieTree.insert.
  destruct (TrieTree.contains dollar (TrieTree.Str s) self) eqn:Hc; simpl.
  - exists self. by split_and!.
  - eexists. split; [done|]. split_and!; [|done|done].
    simpl. apply walk_enter_same.
Qed.

Lemma trie_contains_insert s self v :
  dollar ∉ s →
  TrieTree.contains dollar (TrieTree.Str v)
    (TrieTree.insert dollar (TrieTree.Str s) self).2 = true ↔
  v = s ∨ TrieTree.contains dollar (TrieTree.Str v) self = true.
Proof.
  intros Hs. unfold TrieTree.insert.
  destruct (TrieTree.contains dollar (TrieTree.Str s) self) eqn:Hc; simpl.
  - split; [by right|]. intros [->|Hv]; [exact Hc|done].
  - simpl in Hc. rewrite (walk_enter s _ Hs Hc v). case_decide as Hv.
    + split; [by left|done].
    + split; [by right|]. by intros [?|?].
Qed.

(** X18: [insert] of a string without the marker letter ["$"] changes
    the answer of [contains] for that string only: afterwards a string is
    found exactly when it is the inserted one or was found before. *)
Theorem trie_insert_keeps_other_words s self v :
  dollar ∉ s →
  TrieTree.contains dollar (TrieTree.Str v)
    (TrieTree.insert dollar (TrieTree.Str s) self).2 = true ↔
  v = s ∨ TrieTree.contains dollar (TrieTree.Str v) self = true.
Proof. apply trie_contains_insert. Qed.

(** X19: the marker is an ordinary key: after [insert] of a string that
    ends with the letter ["$"], [contains] also finds the string without
    that last letter, whether or not it was ever inserted. *)
Theorem trie_marker_letter_collides w self :
  TrieTree.contains dollar (TrieTree.Str w)
    (TrieTree.insert dollar (TrieTree.Str (w ++ [dollar])) self).2 = true.
Proof.
  unfold TrieTree.insert.
  destruct (TrieTree.contains dollar (TrieTree.Str (w ++ [dollar])) self) eqn:Hc; simpl.
  - by apply walk_marker_suffix.
  - apply walk_marker_suffix, walk_enter_same.
Qed.

(** X20: after the strings of a list, none of which holds the marker
    letter ["$"], have been inserted into a new trie, [contains] finds
    exactly the strings of the list and [size] is the number of distinct
    strings among them. *)
Theorem trie_holds_inserted_words (ws : list (list letter)) :
  Forall (λ w, dollar ∉ w) ws →
  let self :=
    TrieTree.insert_all dollar (TrieTree.Str <$> ws) TrieTree.init in
  (∀ v, TrieTree.contains dollar (TrieTree.Str v) self = true ↔ v ∈ ws) ∧
  ∃ distinct, NoDup distinct ∧ (∀ v, v ∈ distinct ↔ v ∈ ws) ∧
    TrieTree.size self = length distinct.
Proof.
  induction ws as [|w ws IH] using rev_ind; intros Hws self.
  - split.
    + intros v. simpl. rewrite walk_empty. split; [done|]. intros Hv. inversion Hv.
    + exists []. split; [apply NoDup_nil_2|]. done.
  - apply Forall_app in Hws as [Hws Hw].
    apply (proj1 (Forall_singleton _ _)) in Hw.
    destruct (IH Hws) as [Hin (distinct & Hnd & Hdist & Hsize)]. clear IH.
    unfold self, TrieTree.insert_all. rewrite fmap_app, foldl_app.
    cbn [fmap list_fmap foldl].
    fold (TrieTree.insert_all dollar (TrieTree.Str <$> ws) TrieTree.init).
    set (self0 := TrieTree.insert_all dollar (TrieTree.Str <$> ws) TrieTree.init)
      in *.
    split.
    + intros v. rewrite trie_contains_insert by done.
      rewrite Hin, elem_of_app, list_elem_of_singleton. tauto.
    + unfold TrieTree.insert.
      destruct (TrieTree.contains dollar (TrieTree.Str w) self0) eqn:Hc; simpl.
      * apply Hin in Hc. exists distinct. split; [done|]. split; [|done].
        intros v. rewrite Hdist, elem_of_app, list_elem_of_singleton.
        split; [by left|]. by intros [?| ->].
      * assert (w ∉ ws) as Hnew by (rewrite <-Hin; congruence).
        exists (distinct ++ [w]). split_and!.
        -- apply NoDup_app. split; [done|]. split; [|apply NoDup_singleton].
           intros x Hx ->%list_elem_of_singleton. by apply Hnew, Hdist.
        -- intros v. rewrite !elem_of_app, Hdist. done.
        -- rewrite length_app. simpl. unfold TrieTree.size in Hsize. lia.
Qed.

End TrieFacts.

Section BinarySearchTreeFacts.

Context {val : Type} `{EqDecision val}.

Implicit Types (v x : val) (vs : list val)
  (self : @BinarySearchTree.state val).

Lemma bst_insert_keeps_root vs self n :
  BinarySearchTree._root_node self = Some n →
  BinarySearchTree._root_node (BinarySearchTree.insert_all vs self) = Some n.
Proof.
  revert self. induction vs as [|v vs IH]; intros self Hroot; [done|].
  simpl. apply IH. unfold BinarySearchTree.insert. by rewrite Hroot.
Qed.

(** X21: the value of the first [insert] becomes the root node, and no
    later [insert] replaces or extends it: after any sequence of
    insertions into a new tree the root node still holds the first
    value. *)
Theorem bst_root_is_first_value v vs :
  BinarySearchTree._root_node
    (BinarySearchTree.insert_all (v :: vs) BinarySearchTree.init)
  = Some (BinarySearchTree.MkNode v).
Proof. simpl. by apply bst_insert_keeps_root. Qed.

Lemma bst_insert_values v self :
  BinarySearchTree._values (BinarySearchTree.insert v self)
  = PyDict.setdefault v true (BinarySearchTree._values self).
Proof.
  unfold BinarySearchTree.insert.
  by destruct (BinarySearchTree._root_node self).
Qed.

Lemma bst_values_invariant vs :
  ∀ self,
    NoDup (BinarySearchTree._values self).*1 →
    (∀ kv, kv ∈ BinarySearchTree._values self → kv.2 = true) →
    let self' := BinarySearchTree.insert_all vs self in
    NoDup (BinarySearchTree._values self').*1 ∧
    (∀ kv, kv ∈ BinarySearchTree._values self' → kv.2 = true) ∧
    (∀ x, x ∈ (BinarySearchTree._values self').*1 ↔
          x ∈ (BinarySearchTree._values self).*1 ∨ x ∈ vs).
Proof.
  induction vs as [|v vs IH]; intros self Hnd Htrue; simpl.
  - split; [done|]. split; [done|]. intros x. split; [by left|].
    intros [?|Hx]; [done|inversion Hx].
  - destruct (IH (BinarySearchTree.insert v self)) as (Hnd' & Htrue' & Hin').
    + rewrite bst_insert_values. unfold PyDict.setdefault.
      destruct (PyDict.has v _) eqn:Hv; [done|].
      rewrite pydict_keys_set, Hv. apply NoDup_app.
      split; [done|]. split; [|apply NoDup_singleton].
      intros x Hx ->%list_elem_of_singleton.
      apply pydict_has_keys in Hx. congruence.
    + intros kv. rewrite bst_insert_values. unfold PyDict.setdefault.
      destruct (PyDict.has v _); [apply Htrue|].
      intros [->|Hkv]%pydict_elem_of_set; [done|by apply Htrue].
    + split; [done|]. split; [done|]. intros x. rewrite Hin'.
      rewrite bst_insert_values, <-!pydict_has_keys, pydict_has_setdefault.
      rewrite elem_of_cons, orb_true_iff, bool_decide_eq_true. tauto.
Qed.

(** X22: after any sequence of insertions into a new tree, the
    dictionary [_values] has one key for each distinct inserted value and
    no other key, every key is mapped to [True], and a further [insert]
    of a value that was inserted before changes nothing at all. *)
Theorem bst_values_are_the_inserted_values vs :
  let self := BinarySearchTree.insert_all vs BinarySearchTree.init in
  NoDup (BinarySearchTree._values self).*1 ∧
  (∀ x, x ∈ (BinarySearchTree._values self).*1 ↔ x ∈ vs) ∧
  (∀ kv, kv ∈ BinarySearchTree._values self → kv.2 = true) ∧
  (∀ x, x ∈ vs → BinarySearchTree.insert x self = self).
Proof.
  intros self.
  destruct (bst_values_invariant vs BinarySearchTree.init) as (Hnd & Htrue & Hin).
  { apply NoDup_nil_2. }
  { intros kv Hkv. inversion Hkv. }
  fold self in Hnd, Htrue, Hin.
  assert (∀ x, x ∈ (BinarySearchTree._values self).*1 ↔ x ∈ vs) as Hkeys.
  { intros x. rewrite Hin. split; [|by right]. intros [Hx|?]; [|done].
    inversion Hx. }
  split_and!; try done.
  intros x Hx. destruct vs as [|v vs]; [inversion Hx|].
  assert (BinarySearchTree._root_node self
          = Some (BinarySearchTree.MkNode v)) as Hroot.
  { by apply (bst_insert_keeps_root vs
                (BinarySearchTree.insert v BinarySearchTree.init)). }
  apply Hkeys, pydict_has_keys in Hx.
  unfold BinarySearchTree.insert, PyDict.setdefault. rewrite Hx, Hroot.
  rewrite <-Hroot. clearbody self. by destruct self.
Qed.

End BinarySearchTreeFacts.

(** ** The theorems on the other modules at concrete inputs *)

Lemma fill_graph_adds_chain_edges_witness :
  (∀ i, 0 ≤ i < 100 → has_edge single i (i + 1) = false) ∧
  ∃ d', fill_graph single = (Return tt, d') ∧
        successors d' 5 = [6] ∧ successors d' 100 = [].
Proof.
  assert (∀ i, 0 ≤ i < 100 → has_edge single i (i + 1) = false) as Hfree.
  { intros i _. unfold has_edge, single. simpl. by case_decide. }
  split; [exact Hfree|].
  destruct (proj1 (fill_graph_adds_chain_edges 0) single Hfree)
    as (d' & Hrun & Hd').
  exists d'. split; [exact Hrun|]. split.
  - rewrite Hd'. reflexivity.
  - rewrite Hd'. reflexivity.
Defined.

(** Letters as code points; 36 is ["$"], 97 and 98 are ["a"] and ["b"]. *)
Lemma trie_insert_keeps_other_words_witness :
  (36 ∉ [97; 98]) ∧
  (TrieTree.contains 36 (TrieTree.Str [97])
     (TrieTree.insert 36 (TrieTree.Str [97; 98]) TrieTree.init).2 = true ↔
   [97] = [97; 98] ∨
   TrieTree.contains 36 (TrieTree.Str [97]) TrieTree.init = true).
Proof.
  assert (36 ∉ [97; 98]) as Hs
    by (apply (bool_decide_eq_false_1 (36 ∈ [97; 98])); reflexivity).
  split; [exact Hs|].
  exact (trie_insert_keeps_other_words 36 [97; 98] TrieTree.init [97] Hs).
Defined.

Lemma trie_holds_inserted_words_witness :
  Forall (λ w, 36 ∉ w) [[97]; [97; 98]; [97]] ∧
  ∀ v, TrieTree.contains 36 (TrieTree.Str v)
         (TrieTree.insert_all 36 (TrieTree.Str <$> [[97]; [97; 98]; [97]])
            TrieTree.init) = true ↔ v ∈ [[97]; [97; 98]; [97]].
Proof.
  assert (36 ∉ [97]) as H1
    by (apply (bool_decide_eq_false_1 (36 ∈ [97])); reflexivity).
  assert (36 ∉ [97; 98]) as H2
    by (apply (bool_decide_eq_false_1 (36 ∈ [97; 98])); reflexivity).
  assert (Forall (λ w, 36 ∉ w) [[97]; [97; 98]; [97]]) as Hws
    by (repeat constructor; assumption).
  split; [exact Hws|].
  exact (proj1 (trie_holds_inserted_words 36 [[97]; [97; 98]; [97]] Hws)).
Defined.
